(** * DataGator aggregator service: event store, projections, task queue

    A shallow embedding of [services/py/database.py] and of the core of
    [services/py/main.py]: the four tables, the services [EventStore],
    [TaskQueue], [LeadService] and [CampaignService], the two task handlers
    and the body of [background_task_processor].

    Conventions of the embedding.
    - A table is the list of its rows in insertion order (the order of the
      integer primary key, which the storage engine assigns as 1, 2, 3, ...;
      the program never deletes a row).  An object loaded through the ORM is a
      pair of the row's position and its fields: writing it back replaces
      the row at that position.
    - [ORDER BY c] is a stable sort of the scanned rows on [c]: rows with
      equal keys stay in scan order, as the engine's sorter leaves them.
    - [datetime] values are integers (microseconds since the epoch); Python
      [int] is [Z]; Python [float] is the kernel's binary64 [float].
    - The clock, the UUID generator, the HTTP peer and the configuration file
      are the environment: the n-th call of each returns what [Env] says.
    - An operation is a function from the environment and the world to an
      outcome (a value or a raised exception) and the world it leaves.
    - Logging changes nothing and is left out; a [limit] is a natural
      number (the worker passes 5); the worker's session is taken as given. *)

From Stdlib Require Import ZArith PrimFloat.
From stdpp Require Import gmap strings list sorting pretty.

Local Open Scope Z_scope.

(** ** Python values held in JSON columns and request dictionaries *)

Local Set Warnings "-register-all".

Inductive pyval :=
  | PNone
  | PBool (b : bool)
  | PInt (z : Z)
  | PFloat (f : float)
  | PStr (s : string)
  | PTime (t : Z)
  | PList (l : list pyval)
  | PDict (d : gmap string pyval).

Abbreviation dict := (gmap string pyval).

(** Python truthiness ([if v:], [v or w]). *)
Definition truthy (v : pyval) : bool :=
  match v with
  | PNone => false
  | PBool b => b
  | PInt z => negb (z =? 0)
  | PFloat f => negb (PrimFloat.eqb f 0%float)
  | PStr s => negb (String.eqb s "")
  | PTime _ => true
  | PList l => match l with [] => false | _ => true end
  | PDict d => negb (Nat.eqb (size d) 0)
  end.

(** [d.get(k)]: [None] when the key is absent. *)
Definition dict_get (d : dict) (k : string) : pyval := default PNone (d !! k).

(** A string-valued entry; anything else compares unequal to every key
    column of the schema. *)
Definition dict_get_str (d : dict) (k : string) : option string :=
  match d !! k with Some (PStr s) => Some s | _ => None end.

(** [v.get(k, {})] for a value expected to be a dictionary. *)
Definition as_dict (v : pyval) : dict :=
  match v with PDict d => d | _ => ∅ end.

(** [datetime] and [timedelta(seconds=n)]. *)
Definition datetime := Z.
Definition timedelta_seconds (n : Z) : Z := n * 1000000.

(** ** database.py: enumerations and tables *)

Inductive EventType :=
  LEAD_CREATED | LEAD_SENT_TO_CRM | PAYMENT_REGISTERED | YANDEX_DIRECT_CONVERSION.

Inductive TaskStatus := PENDING | PROCESSING | COMPLETED | FAILED.

Inductive TaskType := SEND_TO_CRM | SEND_TO_YANDEX_DIRECT | RETRY_FAILED.

Global Instance TaskStatus_eq_dec : EqDecision TaskStatus.
Proof. solve_decision. Defined.

Global Instance TaskType_eq_dec : EqDecision TaskType.
Proof. solve_decision. Defined.

Module Event.
Record t := mk {
  id : option Z;
  event_id : string;
  aggregate_id : string;
  event_type : EventType;
  payload : dict;
  version : Z;
  created_at : datetime;
  metadata : dict
}.
Definition with_id (v : option Z) (e : t) : t :=
  mk v (event_id e) (aggregate_id e) (event_type e) (payload e) (version e)
     (created_at e) (metadata e).
End Event.

Module Task.
Record t := mk {
  id : option Z;
  task_id : string;
  task_type : TaskType;
  payload : dict;
  status : TaskStatus;
  attempts : Z;
  max_attempts : Z;
  error_message : option string;
  result : option dict;
  scheduled_at : datetime;
  started_at : option datetime;
  completed_at : option datetime
}.
Definition with_id (v : option Z) (x : t) : t :=
  mk v (task_id x) (task_type x) (payload x) (status x) (attempts x)
     (max_attempts x) (error_message x) (result x) (scheduled_at x)
     (started_at x) (completed_at x).
Definition with_status (v : TaskStatus) (x : t) : t :=
  mk (id x) (task_id x) (task_type x) (payload x) v (attempts x)
     (max_attempts x) (error_message x) (result x) (scheduled_at x)
     (started_at x) (completed_at x).
Definition with_attempts (v : Z) (x : t) : t :=
  mk (id x) (task_id x) (task_type x) (payload x) (status x) v
     (max_attempts x) (error_message x) (result x) (scheduled_at x)
     (started_at x) (completed_at x).
Definition with_error_message (v : option string) (x : t) : t :=
  mk (id x) (task_id x) (task_type x) (payload x) (status x) (attempts x)
     (max_attempts x) v (result x) (scheduled_at x)
     (started_at x) (completed_at x).
Definition with_result (v : option dict) (x : t) : t :=
  mk (id x) (task_id x) (task_type x) (payload x) (status x) (attempts x)
     (max_attempts x) (error_message x) v (scheduled_at x)
     (started_at x) (completed_at x).
Definition with_started_at (v : option datetime) (x : t) : t :=
  mk (id x) (task_id x) (task_type x) (payload x) (status x) (attempts x)
     (max_attempts x) (error_message x) (result x) (scheduled_at x)
     v (completed_at x).
Definition with_completed_at (v : option datetime) (x : t) : t :=
  mk (id x) (task_id x) (task_type x) (payload x) (status x) (attempts x)
     (max_attempts x) (error_message x) (result x) (scheduled_at x)
     (started_at x) v.
End Task.

Module Lead.
Record t := mk {
  id : option Z;
  lead_id : string;
  campaign_id : option string;
  landing_id : string;
  form_data : dict;
  status : string;
  crm_id : option string;
  payment_amount : pyval;
  payment_date : pyval;
  created_at : datetime;
  updated_at : datetime
}.
Definition with_status (v : string) (x : t) : t :=
  mk (id x) (lead_id x) (campaign_id x) (landing_id x) (form_data x) v
     (crm_id x) (payment_amount x) (payment_date x) (created_at x)
     (updated_at x).
Definition with_crm_id (v : option string) (x : t) : t :=
  mk (id x) (lead_id x) (campaign_id x) (landing_id x) (form_data x)
     (status x) v (payment_amount x) (payment_date x) (created_at x)
     (updated_at x).
Definition with_payment_amount (v : pyval) (x : t) : t :=
  mk (id x) (lead_id x) (campaign_id x) (landing_id x) (form_data x)
     (status x) (crm_id x) v (payment_date x) (created_at x)
     (updated_at x).
Definition with_payment_date (v : pyval) (x : t) : t :=
  mk (id x) (lead_id x) (campaign_id x) (landing_id x) (form_data x)
     (status x) (crm_id x) (payment_amount x) v (created_at x)
     (updated_at x).
Definition with_updated_at (v : datetime) (x : t) : t :=
  mk (id x) (lead_id x) (campaign_id x) (landing_id x) (form_data x)
     (status x) (crm_id x) (payment_amount x) (payment_date x)
     (created_at x) v.
End Lead.

Module CampaignStat.
Record t := mk {
  id : option Z;
  campaign_id : string;
  total_leads : Z;
  total_payments : Z;
  total_revenue : float;
  last_lead_at : option datetime;
  last_payment_at : option datetime;
  created_at : datetime;
  updated_at : datetime
}.
Definition with_id (v : option Z) (x : t) : t :=
  mk v (campaign_id x) (total_leads x) (total_payments x) (total_revenue x)
     (last_lead_at x) (last_payment_at x) (created_at x) (updated_at x).
Definition with_total_leads (v : Z) (x : t) : t :=
  mk (id x) (campaign_id x) v (total_payments x) (total_revenue x)
     (last_lead_at x) (last_payment_at x) (created_at x) (updated_at x).
Definition with_total_payments (v : Z) (x : t) : t :=
  mk (id x) (campaign_id x) (total_leads x) v (total_revenue x)
     (last_lead_at x) (last_payment_at x) (created_at x) (updated_at x).
Definition with_total_revenue (v : float) (x : t) : t :=
  mk (id x) (campaign_id x) (total_leads x) (total_payments x) v
     (last_lead_at x) (last_payment_at x) (created_at x) (updated_at x).
Definition with_last_lead_at (v : option datetime) (x : t) : t :=
  mk (id x) (campaign_id x) (total_leads x) (total_payments x)
     (total_revenue x) v (last_payment_at x) (created_at x) (updated_at x).
Definition with_last_payment_at (v : option datetime) (x : t) : t :=
  mk (id x) (campaign_id x) (total_leads x) (total_payments x)
     (total_revenue x) (last_lead_at x) v (created_at x) (updated_at x).
Definition with_updated_at (v : datetime) (x : t) : t :=
  mk (id x) (campaign_id x) (total_leads x) (total_payments x)
     (total_revenue x) (last_lead_at x) (last_payment_at x) (created_at x) v.
End CampaignStat.

(** ** The environment and the world *)

Inductive Exception :=
  | ValueError (msg : string)
  | MultipleResultsFound.

(** [str(e)], as the worker records it in [error_message]. *)
Definition str_of_exception (e : Exception) : string :=
  match e with
  | ValueError msg => msg
  | MultipleResultsFound =>
      "Multiple rows were found when one or none was required"
  end.

(** What the program reads from outside: the n-th reading of
    [datetime.utcnow()], the n-th [uuid.uuid4()] rendered as a string, the
    dictionary the n-th [HTTPClient.post] returns, the content of
    [integrations.json] at its n-th opening ([None] when the file is
    missing), and Python's rendering of a dictionary inside an f-string. *)
Record Env := {
  env_utcnow : nat → datetime;
  env_uuid4 : nat → string;
  env_http_post : nat → dict;
  env_integrations : nat → option dict;
  env_str : dict → string
}.

Record World := mkWorld {
  events : list Event.t;
  tasks : list Task.t;
  leads : list Lead.t;
  campaign_stats : list CampaignStat.t;
  clock_reads : nat;
  uuids_drawn : nat;
  http_posts : nat;
  file_reads : nat
}.

Definition set_events (v : list Event.t) (w : World) : World :=
  mkWorld v (tasks w) (leads w) (campaign_stats w)
          (clock_reads w) (uuids_drawn w) (http_posts w) (file_reads w).
Definition set_tasks (v : list Task.t) (w : World) : World :=
  mkWorld (events w) v (leads w) (campaign_stats w)
          (clock_reads w) (uuids_drawn w) (http_posts w) (file_reads w).
Definition set_leads (v : list Lead.t) (w : World) : World :=
  mkWorld (events w) (tasks w) v (campaign_stats w)
          (clock_reads w) (uuids_drawn w) (http_posts w) (file_reads w).
Definition set_campaign_stats (v : list CampaignStat.t) (w : World) : World :=
  mkWorld (events w) (tasks w) (leads w) v
          (clock_reads w) (uuids_drawn w) (http_posts w) (file_reads w).
Definition set_clock_reads (v : nat) (w : World) : World :=
  mkWorld (events w) (tasks w) (leads w) (campaign_stats w)
          v (uuids_drawn w) (http_posts w) (file_reads w).
Definition set_uuids_drawn (v : nat) (w : World) : World :=
  mkWorld (events w) (tasks w) (leads w) (campaign_stats w)
          (clock_reads w) v (http_posts w) (file_reads w).
Definition set_http_posts (v : nat) (w : World) : World :=
  mkWorld (events w) (tasks w) (leads w) (campaign_stats w)
          (clock_reads w) (uuids_drawn w) v (file_reads w).
Definition set_file_reads (v : nat) (w : World) : World :=
  mkWorld (events w) (tasks w) (leads w) (campaign_stats w)
          (clock_reads w) (uuids_drawn w) (http_posts w) v.

(** The four tables of a world, compared as a whole. *)
Definition same_tables (w w' : World) : Prop :=
  events w' = events w ∧ tasks w' = tasks w ∧ leads w' = leads w ∧
  campaign_stats w' = campaign_stats w.

(** ** Operations: state, exceptions, environment *)

Inductive Outcome (A : Type) :=
  | Ok (a : A)
  | Raise (e : Exception).
Arguments Ok {A} a.
Arguments Raise {A} e.

Definition M (A : Type) : Type := Env → World → Outcome A * World.

Global Instance M_ret : MRet M := λ A a _ w, (Ok a, w).

Global Instance M_bind : MBind M := λ A B f m env w,
  match m env w with
  | (Ok a, w') => f a env w'
  | (Raise e, w') => (Raise e, w')
  end.

Global Instance M_fmap : FMap M := λ A B f m, m ≫= λ a, mret (f a).

Definition raise {A} (e : Exception) : M A := λ _ w, (Raise e, w).

(** [try: body  except Exception as e: handler e]. *)
Definition try_except {A} (body : M A) (handler : Exception → M A) : M A :=
  λ env w,
    match body env w with
    | (Ok a, w') => (Ok a, w')
    | (Raise e, w') => handler e env w'
    end.

(** [for x in l: body x]. *)
Fixpoint for_each {A} (l : list A) (body : A → M unit) : M unit :=
  match l with
  | [] => mret tt
  | x :: l' => body x;; for_each l' body
  end.

Definition get_world : M World := λ _ w, (Ok w, w).
Definition update_world (f : World → World) : M unit := λ _ w, (Ok tt, f w).
Definition ask_env : M Env := λ env w, (Ok env, w).

(** [datetime.utcnow()]. *)
Definition utcnow : M datetime :=
  env ← ask_env; w ← get_world;
  update_world (set_clock_reads (S (clock_reads w)));;
  mret (env_utcnow env (clock_reads w)).

(** [str(uuid.uuid4())]. *)
Definition uuid4 : M string :=
  env ← ask_env; w ← get_world;
  update_world (set_uuids_drawn (S (uuids_drawn w)));;
  mret (env_uuid4 env (uuids_drawn w)).

(** [HTTPClient.post(url, data, headers)]: it catches every exception of the
    exchange itself and always returns a dictionary with a [status]. *)
Definition http_post : M dict :=
  env ← ask_env; w ← get_world;
  update_world (set_http_posts (S (http_posts w)));;
  mret (env_http_post env (http_posts w)).

(** [json.load(open(INTEGRATIONS_CONFIG))], with [FileNotFoundError] caught
    as the callers do: a missing file reads as the empty dictionary. *)
Definition load_integrations : M dict :=
  env ← ask_env; w ← get_world;
  update_world (set_file_reads (S (file_reads w)));;
  mret (default ∅ (env_integrations env (file_reads w))).

(** [asyncio.sleep]: the pass of time is the clock's, not the program's. *)
Definition sleep : M unit := mret tt.

(** ** Queries *)

(** [select(T).where(P)]: the matching rows in scan order, each with its
    position in the table. *)
Fixpoint select_from {A} (P : A → Prop) `{!∀ x, Decision (P x)}
    (n : nat) (table : list A) : list (nat * A) :=
  match table with
  | [] => []
  | x :: table' =>
      if decide (P x) then (n, x) :: select_from P (S n) table'
      else select_from P (S n) table'
  end.

Definition select_where {A} (P : A → Prop) `{!∀ x, Decision (P x)}
    (table : list A) : list (nat * A) :=
  select_from P 0 table.

(** [.order_by(key)]: stable insertion into the sorted rest. *)
Fixpoint insert_by {A} (key : A → Z) (x : A) (l : list A) : list A :=
  match l with
  | [] => [x]
  | y :: l' => if key x <=? key y then x :: y :: l' else y :: insert_by key x l'
  end.

Fixpoint order_by {A} (key : A → Z) (l : list A) : list A :=
  match l with
  | [] => []
  | x :: l' => insert_by key x (order_by key l')
  end.

(** [result.scalar_one_or_none()]. *)
Definition scalar_one_or_none {A} (rows : list A) : M (option A) :=
  match rows with
  | [] => mret None
  | [r] => mret (Some r)
  | _ => raise MultipleResultsFound
  end.

(** The primary key the engine gives the next inserted row. *)
Definition next_id {A} (table : list A) : option Z :=
  Some (Z.of_nat (length table) + 1).

(** ** main.py: request models *)

Module LeadFormData.
Record t := mk {
  name : option string;
  email : option string;
  phone : option string;
  campaign_id : option string;
  landing_id : option string;
  utm_campaign : option string;
  utm_source : option string;
  utm_medium : option string;
  custom_fields : dict
}.

Definition py_str (s : option string) : pyval :=
  match s with Some s => PStr s | None => PNone end.

(** [form_data.dict()]. *)
Definition to_dict (f : t) : dict :=
  {[ "name" := py_str (name f); "email" := py_str (email f);
     "phone" := py_str (phone f); "campaign_id" := py_str (campaign_id f);
     "landing_id" := py_str (landing_id f);
     "utm_campaign" := py_str (utm_campaign f);
     "utm_source" := py_str (utm_source f);
     "utm_medium" := py_str (utm_medium f);
     "custom_fields" := PDict (custom_fields f) ]}.
End LeadFormData.

(** ** main.py: services *)

Module EventStore.

(** [session.add(event); commit; refresh]: the row is appended and comes back
    with its primary key. *)
Definition insert (event : Event.t) : M Event.t :=
  w ← get_world;
  let row := Event.with_id (next_id (events w)) event in
  update_world (set_events (events w ++ [row]));;
  mret row.

Definition save_event (aggregate_id : string) (event_type : EventType)
    (payload : dict) (metadata : option dict) : M Event.t :=
  event_id ← uuid4;
  created_at ← utcnow;
  insert (Event.mk None event_id aggregate_id event_type payload 1
                   created_at (default ∅ metadata)).

Definition get_events_by_aggregate (aggregate_id : string)
    : M (list Event.t) :=
  w ← get_world;
  mret (order_by Event.created_at
          (select_where (λ e, Event.aggregate_id e = aggregate_id)
                        (events w)).*2).

(** [order_by(desc(Event.created_at)).limit(limit).offset(offset)]: the
    newest first, [offset] rows skipped, at most [limit] returned. *)
Definition get_all_events (limit offset : nat) : M (list Event.t) :=
  w ← get_world;
  mret (take limit
          (drop offset
             (order_by (λ e, - Event.created_at e)
                (select_where (λ _, True) (events w)).*2))).

(** [select(func.count(Event.id))]. *)
Definition get_event_count : M Z :=
  w ← get_world;
  mret (Z.of_nat (length (events w))).

End EventStore.

Module TaskQueue.

(** [Task.status == TaskStatus.PENDING, Task.scheduled_at <= now]. *)
Definition ready (now : datetime) (t : Task.t) : Prop :=
  Task.status t = PENDING ∧ Task.scheduled_at t ≤ now.

Global Instance ready_dec now t : Decision (ready now t).
Proof. unfold ready. apply _. Defined.

Definition insert (task : Task.t) : M Task.t :=
  w ← get_world;
  let row := Task.with_id (next_id (tasks w)) task in
  update_world (set_tasks (tasks w ++ [row]));;
  mret row.

Definition create_task (task_type : TaskType) (payload : dict)
    (delay_seconds : Z) : M Task.t :=
  task_id ← uuid4;
  now ← utcnow;
  insert (Task.mk None task_id task_type payload PENDING 0 3 None None
                  (now + timedelta_seconds delay_seconds) None None).

Definition get_pending_tasks (limit : nat) : M (list (nat * Task.t)) :=
  now ← utcnow;
  w ← get_world;
  mret (take limit
          (order_by (λ r, Task.scheduled_at r.2)
             (select_where (ready now) (tasks w)))).

Definition get_task_by_id (task_id : string) : M (option (nat * Task.t)) :=
  w ← get_world;
  scalar_one_or_none (select_where (λ t, Task.task_id t = task_id) (tasks w)).

Definition update_task_status (task_id : string) (status : TaskStatus)
    (error_message : option string) (result : option dict) : M unit :=
  found ← get_task_by_id task_id;
  match found with
  | None => raise (ValueError ("Task " +:+ task_id +:+ " not found"))
  | Some (pos, task) =>
      let task := Task.with_status status task in
      let task := Task.with_attempts (Task.attempts task + 1) task in
      task ← match status with
             | PROCESSING =>
                 now ← utcnow; mret (Task.with_started_at (Some now) task)
             | COMPLETED =>
                 now ← utcnow;
                 mret (Task.with_result result
                         (Task.with_completed_at (Some now) task))
             | FAILED => mret (Task.with_error_message error_message task)
             | PENDING => mret task
             end;
      w ← get_world;
      update_world (set_tasks (<[pos := task]> (tasks w)))
  end.

End TaskQueue.

Module LeadService.

Definition get_lead (lead_id : string) : M (option (nat * Lead.t)) :=
  w ← get_world;
  scalar_one_or_none (select_where (λ l, Lead.lead_id l = lead_id) (leads w)).

(** [if crm_id:] on an optional string. *)
Definition nonempty (s : option string) : bool :=
  match s with Some s => negb (String.eqb s "") | None => false end.

(** [if payment_data and status == "paid":] on an optional dictionary. *)
Definition payment_applies (payment_data : option dict) (status : string)
    : option dict :=
  match payment_data with
  | Some d => if truthy (PDict d) && String.eqb status "paid" then Some d
              else None
  | None => None
  end.

Definition update_lead_status (lead_id : string) (status : string)
    (crm_id : option string) (payment_data : option dict)
    : M (option Lead.t) :=
  found ← get_lead lead_id;
  match found with
  | None => mret None
  | Some (pos, lead) =>
      let lead := Lead.with_status status lead in
      now ← utcnow;
      let lead := Lead.with_updated_at now lead in
      let lead := if nonempty crm_id then Lead.with_crm_id crm_id lead
                  else lead in
      lead ← match payment_applies payment_data status with
             | Some d =>
                 let lead := Lead.with_payment_amount (dict_get d "amount")
                               lead in
                 let supplied := dict_get d "payment_date" in
                 if truthy supplied
                 then mret (Lead.with_payment_date supplied lead)
                 else now ← utcnow;
                      mret (Lead.with_payment_date (PTime now) lead)
             | None => mret lead
             end;
      w ← get_world;
      update_world (set_leads (<[pos := lead]> (leads w)));;
      mret (Some lead)
  end.

(** [uuid.uuid4().hex[:8]]: the first eight digits of the UUID, which in
    its string form stand before the first hyphen. *)
Definition uuid4_hex8 : M string :=
  u ← uuid4; mret (String.substring 0 8 u).

Definition insert (lead : Lead.t) : M Lead.t :=
  w ← get_world;
  update_world (set_leads (leads w ++ [lead]));;
  mret lead.

Definition create_lead (form_data : LeadFormData.t) (landing_id : string)
    (campaign_id : option string) : M Lead.t :=
  hex ← uuid4_hex8;
  created_at ← utcnow;
  updated_at ← utcnow;
  w ← get_world;
  insert (Lead.mk (next_id (leads w)) ("lead_" +:+ hex)
            (if nonempty campaign_id then campaign_id
             else LeadFormData.campaign_id form_data)
            landing_id (LeadFormData.to_dict form_data) "new" None
            PNone PNone created_at updated_at).

End LeadService.

Module CampaignService.

Definition get_stat (campaign_id : string)
    : M (option (nat * CampaignStat.t)) :=
  w ← get_world;
  scalar_one_or_none
    (select_where (λ s, CampaignStat.campaign_id s = campaign_id)
                  (campaign_stats w)).

Definition insert (stat : CampaignStat.t) : M CampaignStat.t :=
  w ← get_world;
  let row := CampaignStat.with_id (next_id (campaign_stats w)) stat in
  update_world (set_campaign_stats (campaign_stats w ++ [row]));;
  mret row.

Definition save (pos : nat) (stat : CampaignStat.t) : M CampaignStat.t :=
  w ← get_world;
  update_world (set_campaign_stats (<[pos := stat]> (campaign_stats w)));;
  mret stat.

Definition increment_lead_count (campaign_id : string) : M CampaignStat.t :=
  found ← get_stat campaign_id;
  match found with
  | None =>
      last_lead_at ← utcnow;
      created_at ← utcnow;
      updated_at ← utcnow;
      insert (CampaignStat.mk None campaign_id 1 0 0%float
                (Some last_lead_at) None created_at updated_at)
  | Some (pos, stat) =>
      let stat :=
        CampaignStat.with_total_leads (CampaignStat.total_leads stat + 1)
          stat in
      now ← utcnow;
      let stat := CampaignStat.with_last_lead_at (Some now) stat in
      now ← utcnow;
      let stat := CampaignStat.with_updated_at now stat in
      save pos stat
  end.

Definition increment_payment_count (campaign_id : string) (amount : float)
    : M CampaignStat.t :=
  found ← get_stat campaign_id;
  match found with
  | None =>
      last_payment_at ← utcnow;
      created_at ← utcnow;
      updated_at ← utcnow;
      insert (CampaignStat.mk None campaign_id 0 1 amount
                None (Some last_payment_at) created_at updated_at)
  | Some (pos, stat) =>
      let stat :=
        CampaignStat.with_total_payments
          (CampaignStat.total_payments stat + 1) stat in
      let stat :=
        CampaignStat.with_total_revenue
          (CampaignStat.total_revenue stat + amount)%float stat in
      now ← utcnow;
      let stat := CampaignStat.with_last_payment_at (Some now) stat in
      now ← utcnow;
      let stat := CampaignStat.with_updated_at now stat in
      save pos stat
  end.

(** [select(CampaignStat)], narrowed to one campaign when [campaign_id] is
    given and not empty, [order_by(desc(CampaignStat.total_leads))]. *)
Definition get_campaign_stats (campaign_id : option string)
    : M (list CampaignStat.t) :=
  w ← get_world;
  let rows :=
    if LeadService.nonempty campaign_id then
      (select_where
         (λ s, Some (CampaignStat.campaign_id s) = campaign_id)
         (campaign_stats w)).*2
    else (select_where (λ _, True) (campaign_stats w)).*2 in
  mret (order_by (λ s, - CampaignStat.total_leads s) rows).

End CampaignService.

(** ** main.py: integrations and task handlers *)

(** [result.get("status", 0)]. *)
Definition status_of (result : dict) : Z :=
  match result !! "status" with Some (PInt z) => z | _ => 0 end.

Definition is_success (result : dict) : bool :=
  (200 <=? status_of result) && (status_of result <? 300).

(** [CrmIntegration(config).send_lead(lead_data)]: whatever the [crm_type],
    one request is posted and its outcome returned. *)
Definition send_lead (crm_config lead_data : dict) : M dict := http_post.

(** [next((c for c in campaigns if c.get("campaign_id") == campaign_id), None)]. *)
Definition is_campaign (campaign_id : string) (c : pyval) : bool :=
  match dict_get_str (as_dict c) "campaign_id" with
  | Some s => String.eqb s campaign_id
  | None => false
  end.

Definition campaigns_of (config : dict) : list pyval :=
  match config !! "campaigns" with Some (PList l) => l | _ => [] end.

(** [YandexDirectIntegration(config).send_conversion(...)]. *)
Definition send_conversion (config : dict) (campaign_id lead_id : string)
    (conversion_type : string) (value : pyval) : M dict :=
  match List.find (is_campaign campaign_id) (campaigns_of config) with
  | None => mret {[ "status" := PInt 404; "body" := PStr "Campaign not found" ]}
  | Some _ => http_post
  end.

(** [process_crm_task].  [lead_id] is [task.payload.get("lead_id")]: absent
    (or not a string) it selects no lead. *)
Definition process_crm_task (lead_id : option string) (crm_config : dict)
    : M dict :=
  try_except
    (match lead_id with
     | None => raise (ValueError "Lead not found: None")
     | Some lead_id =>
         lead ← LeadService.get_lead lead_id;
         match lead with
         | None => raise (ValueError ("Lead not found: " +:+ lead_id))
         | Some (_, lead) =>
             result ← send_lead crm_config (Lead.form_data lead);
             if is_success result then
               LeadService.update_lead_status lead_id "sent_to_crm"
                 (dict_get_str crm_config "crm_id") None;;
               EventStore.save_event lead_id LEAD_SENT_TO_CRM
                 {[ "crm_response" := PDict result;
                    "crm_config" := PDict crm_config ]} None;;
               mret {[ "success" := PBool true; "result" := PDict result ]}
             else
               env ← ask_env;
               raise (ValueError ("CRM request failed: " +:+ env_str env result))
         end
     end)
    (λ e, raise e).

(** [process_yandex_direct_task]. *)
Definition process_yandex_direct_task (lead_id : option string)
    (payment_amount : pyval) : M dict :=
  try_except
    (match lead_id with
     | None => raise (ValueError "Lead or campaign_id not found: None")
     | Some lead_id =>
         lead ← LeadService.get_lead lead_id;
         match lead with
         | Some (_, lead) =>
             if LeadService.nonempty (Lead.campaign_id lead) then
               let campaign_id := default "" (Lead.campaign_id lead) in
               configs ← load_integrations;
               let yandex_config := dict_get configs "yandex_direct" in
               (if truthy yandex_config then
                  result ← send_conversion (as_dict yandex_config) campaign_id
                             lead_id "PAYMENT" payment_amount;
                  if is_success result then
                    EventStore.save_event lead_id YANDEX_DIRECT_CONVERSION
                      {[ "campaign_id" := PStr campaign_id;
                         "amount" := payment_amount;
                         "response" := PDict result ]} None;;
                    mret tt
                  else mret tt
                else mret tt);;
               mret {[ "success" := PBool true;
                       "campaign_id" := PStr campaign_id ]}
             else
               raise (ValueError ("Lead or campaign_id not found: " +:+ lead_id))
         | None =>
             raise (ValueError ("Lead or campaign_id not found: " +:+ lead_id))
         end
     end)
    (λ e, raise e).

(** ** main.py: the worker loop *)

(** [task.attempts] read through the session's object for the row: the
    object [update_task_status] has just mutated is this very object. *)
Definition current_attempts (task : nat * Task.t) : M Z :=
  w ← get_world;
  mret (Task.attempts (default task.2 (tasks w !! task.1))).

(** The body of [for task in tasks:]. *)
Definition process_task (task : nat * Task.t) : M unit :=
  let task_id := Task.task_id task.2 in
  let payload := Task.payload task.2 in
  try_except
    (TaskQueue.update_task_status task_id PROCESSING None None;;
     result ← match Task.task_type task.2 with
              | SEND_TO_CRM =>
                  Some <$> process_crm_task (dict_get_str payload "lead_id")
                             (as_dict (dict_get payload "crm_config"))
              | SEND_TO_YANDEX_DIRECT =>
                  Some <$> process_yandex_direct_task
                             (dict_get_str payload "lead_id")
                             (default (PInt 0) (payload !! "payment_amount"))
              | RETRY_FAILED => mret None
              end;
     TaskQueue.update_task_status task_id COMPLETED None result)
    (λ e,
       attempts ← current_attempts task;
       if attempts >=? Task.max_attempts task.2 - 1 then
         TaskQueue.update_task_status task_id FAILED
           (Some (str_of_exception e)) None
       else
         TaskQueue.update_task_status task_id PENDING None None).

(** One turn of [while True:], given a session. *)
Definition worker_pass : M unit :=
  try_except
    (tasks ← TaskQueue.get_pending_tasks 5;
     for_each tasks process_task;;
     sleep)
    (λ e, sleep).

(** The first [turns] turns of [background_task_processor]. *)
Fixpoint background_task_processor (turns : nat) : M unit :=
  match turns with
  | O => mret tt
  | S n => worker_pass;; background_task_processor n
  end.

(** ** Vocabulary of the properties *)

(** The [where] clauses on the unique columns. *)
Abbreviation has_task_id id := (λ t, Task.task_id t = id).
Abbreviation has_campaign_id id := (λ s, CampaignStat.campaign_id s = id).
Abbreviation has_lead_id id := (λ l, Lead.lead_id l = id).

(** Ascending on a key. *)
Definition key_le {A} (key : A → Z) (a b : A) : Prop := key a ≤ key b.

(** Ordering of selected rows: by key, and by position in the table among
    rows of one key.  It is a strict order. *)
Definition key_then_position {A} (key : A → Z) (r s : nat * A) : Prop :=
  key r.2 < key s.2 ∨ (key r.2 = key s.2 ∧ (r.1 < s.1)%nat).

(** The row [update_task_status] writes back for a task [t], when the
    clock reads [now]. *)
Definition transitioned (status : TaskStatus) (error_message : option string)
    (result : option dict) (now : datetime) (t : Task.t) : Task.t :=
  Task.mk (Task.id t) (Task.task_id t) (Task.task_type t) (Task.payload t)
    status (Task.attempts t + 1) (Task.max_attempts t)
    (match status with FAILED => error_message | _ => Task.error_message t end)
    (match status with COMPLETED => result | _ => Task.result t end)
    (Task.scheduled_at t)
    (match status with PROCESSING => Some now | _ => Task.started_at t end)
    (match status with COMPLETED => Some now | _ => Task.completed_at t end).

(** [update_task_status] reads the clock on entry to processing and on
    completion. *)
Definition after_transition_clock (status : TaskStatus) (w : World) : World :=
  match status with
  | PROCESSING | COMPLETED => set_clock_reads (S (clock_reads w)) w
  | _ => w
  end.

(** The handler call the worker makes for a task, by its type. *)
Definition handler_of (t : Task.t) : M (option dict) :=
  match Task.task_type t with
  | SEND_TO_CRM =>
      Some <$> process_crm_task (dict_get_str (Task.payload t) "lead_id")
                 (as_dict (dict_get (Task.payload t) "crm_config"))
  | SEND_TO_YANDEX_DIRECT =>
      Some <$> process_yandex_direct_task
                 (dict_get_str (Task.payload t) "lead_id")
                 (default (PInt 0) (Task.payload t !! "payment_amount"))
  | RETRY_FAILED => mret None
  end.

(** The row at [pos] is [t], and no other row has its [task_id] (the
    schema's unique constraint on the column). *)
Definition stored_once (w : World) (pos : nat) (t : Task.t) : Prop :=
  tasks w !! pos = Some t ∧
  ∀ k y, tasks w !! k = Some y → Task.task_id y = Task.task_id t → k = pos.

(** [m] leaves [Q] standing, whether it returns or raises. *)
Definition maintains {A} (Q : World → Prop) (m : M A) : Prop :=
  ∀ env w, Q w → Q (m env w).2.

(** A property of the task table alone. *)
Definition on_tasks (Q : list Task.t → Prop) : World → Prop :=
  λ w, Q (tasks w).

(** While the worker goes through a batch, the row at [pos] stays [t] and
    every row of the batch keeps its [task_id]. *)
Definition batch_frame (batch : list (nat * Task.t)) (pos : nat) (t : Task.t)
    (table : list Task.t) : Prop :=
  table !! pos = Some t ∧
  ∀ j tj, (j, tj) ∈ batch →
    ∃ t', table !! j = Some t' ∧ Task.task_id t' = Task.task_id tj.

(** [update_task_status] called on one task once per element of [steps]. *)
Definition apply_transitions (task_id : string)
    (steps : list (TaskStatus * option string * option dict)) : M unit :=
  for_each steps
    (λ step, TaskQueue.update_task_status task_id step.1.1 step.1.2 step.2).

(** A call of [save_event], and a run of calls one after the other. *)
Record AppendRequest := {
  req_aggregate_id : string;
  req_event_type : EventType;
  req_payload : dict;
  req_metadata : option dict
}.

Fixpoint save_events (reqs : list AppendRequest) : M (list Event.t) :=
  match reqs with
  | [] => mret []
  | r :: reqs' =>
      e ← EventStore.save_event (req_aggregate_id r) (req_event_type r)
            (req_payload r) (req_metadata r);
      es ← save_events reqs';
      mret (e :: es)
  end.

(** What a request asks to be stored, and what an event stores of it. *)
Definition request_content (r : AppendRequest) :=
  (req_aggregate_id r, req_event_type r, req_payload r,
   default ∅ (req_metadata r)).

Definition event_content (e : Event.t) :=
  (Event.aggregate_id e, Event.event_type e, Event.payload e,
   Event.metadata e).

(** The rollup rows of a campaign. *)
Definition stats_of (campaign_id : string) (w : World)
    : list CampaignStat.t :=
  filter (λ s, CampaignStat.campaign_id s = campaign_id) (campaign_stats w).

(** The row at [pos] is [lead], and no other row has its [lead_id]. *)
Definition lead_stored_once (w : World) (pos : nat) (lead : Lead.t) : Prop :=
  leads w !! pos = Some lead ∧
  ∀ k y, leads w !! k = Some y → Lead.lead_id y = Lead.lead_id lead → k = pos.

(** What the worker keeps of the task table: its rows, each with its keys,
    type, payload, [max_attempts] and [scheduled_at], and attempts that have
    not gone down. *)
Definition same_tasks_grown (before after : list Task.t) : Prop :=
  length after = length before ∧
  ∀ i t t', before !! i = Some t → after !! i = Some t' →
    (Task.id t', Task.task_id t', Task.task_type t', Task.payload t',
     Task.max_attempts t', Task.scheduled_at t')
    = (Task.id t, Task.task_id t, Task.task_type t, Task.payload t,
       Task.max_attempts t, Task.scheduled_at t) ∧
    Task.attempts t ≤ Task.attempts t'.

(** What the worker keeps of the other tables: the event log as a prefix of
    the later log, the campaign rollups, and the leads, each with its keys,
    campaign, landing, form data, creation time and payment fields. *)
Definition log_kept (before after : World) : Prop :=
  events before `prefix_of` events after ∧
  campaign_stats after = campaign_stats before ∧
  length (leads after) = length (leads before) ∧
  ∀ i l l', leads before !! i = Some l → leads after !! i = Some l' →
    (Lead.id l', Lead.lead_id l', Lead.campaign_id l', Lead.landing_id l',
     Lead.form_data l', Lead.created_at l', Lead.payment_amount l',
     Lead.payment_date l')
    = (Lead.id l, Lead.lead_id l, Lead.campaign_id l, Lead.landing_id l,
       Lead.form_data l, Lead.created_at l, Lead.payment_amount l,
       Lead.payment_date l).

(** The row at [pos] is [s], and no other row has its [campaign_id]. *)
Definition stat_stored_once (w : World) (pos : nat) (s : CampaignStat.t)
    : Prop :=
  campaign_stats w !! pos = Some s ∧
  ∀ k y, campaign_stats w !! k = Some y →
    CampaignStat.campaign_id y = CampaignStat.campaign_id s → k = pos.

(** Whether [process_yandex_direct_task] posts a conversion for a campaign:
    the [yandex_direct] entry of the configuration is not empty and lists
    the campaign. *)
Definition conversion_posted (configs : dict) (campaign_id : string) : bool :=
  let yandex_config := dict_get configs "yandex_direct" in
  truthy yandex_config &&
  match List.find (is_campaign campaign_id)
          (campaigns_of (as_dict yandex_config)) with
  | Some _ => true
  | None => false
  end.

(** ** Scenarios *)

(** An environment: the clock advances by one microsecond per reading, every
    request is answered with status 500, there is no configuration file. *)
Definition sample_env : Env :=
  {| env_utcnow := λ n, 1000 + Z.of_nat n;
     env_uuid4 := λ n, "uuid-" +:+ pretty n;
     env_http_post := λ _, {[ "status" := PInt 500;
                              "body" := PStr "Internal Server Error" ]};
     env_integrations := λ _, None;
     env_str := λ _, "{'status': 500, 'body': 'Internal Server Error'}" |}.

Definition empty_world : World := mkWorld [] [] [] [] 0 0 0 0.

(** A task that completed on its second transition. *)
Definition done_task : Task.t :=
  Task.mk (Some 1) "task-1" RETRY_FAILED ∅ COMPLETED 2 3 None None
          900 (Some 950) (Some 960).

(** A task of the retry type, pending and due. *)
Definition retry_task : Task.t :=
  Task.mk (Some 2) "task-2" RETRY_FAILED ∅ PENDING 0 3 None None
          990 None None.

(** A second one, scheduled a little later. *)
Definition second_task : Task.t :=
  Task.mk (Some 3) "task-3" RETRY_FAILED ∅ PENDING 0 3 None None
          995 None None.

Definition done_world : World :=
  mkWorld [] [done_task; retry_task; second_task] [] [] 0 0 0 0.

(** A lead, and the task [create_lead] queues for it when a CRM endpoint is
    configured; in [sample_env] the CRM answers 500 to every request. *)
Definition crm_lead : Lead.t :=
  Lead.mk (Some 1) "lead_0a1b2c3d" (Some "camp1") "default" ∅ "new" None
          PNone PNone 500 500.

Definition crm_config : dict :=
  {[ "crm_id" := PStr "crm1"; "crm_type" := PStr "generic";
     "api_endpoint" := PStr "https://crm.example/api" ]}.

Definition crm_world : World :=
  (TaskQueue.create_task SEND_TO_CRM
     {[ "lead_id" := PStr "lead_0a1b2c3d"; "crm_config" := PDict crm_config ]}
     0 sample_env (mkWorld [] [] [crm_lead] [] 0 0 0 0)).2.

(** Three appends, two of them for the aggregate [lead_1]. *)
Definition sample_requests : list AppendRequest :=
  [ Build_AppendRequest "lead_1" LEAD_CREATED
      {[ "email" := PStr "a@b.com" ]} None;
    Build_AppendRequest "lead_2" LEAD_CREATED ∅ None;
    Build_AppendRequest "lead_1" PAYMENT_REGISTERED
      {[ "webhook_source" := PStr "crm1" ]} None ].

(** Three pending tasks, scheduled one second before, two seconds before and
    ten seconds after the first clock reading of [sample_env]. *)
Definition due_task : Task.t :=
  Task.mk (Some 1) "task-a" RETRY_FAILED ∅ PENDING 0 3 None None
          (1000 - timedelta_seconds 1) None None.

Definition overdue_task : Task.t :=
  Task.mk (Some 2) "task-b" RETRY_FAILED ∅ PENDING 0 3 None None
          (1000 - timedelta_seconds 2) None None.

Definition future_task : Task.t :=
  Task.mk (Some 3) "task-c" RETRY_FAILED ∅ PENDING 0 3 None None
          (1000 + timedelta_seconds 10) None None.

Definition three_tasks_world : World :=
  mkWorld [] [due_task; overdue_task; future_task] [] [] 0 0 0 0.

(** The world whose only row is the lead [crm_lead]. *)
Definition lead_world : World := mkWorld [] [] [crm_lead] [] 0 0 0 0.

(** An environment in which every request is answered with status 200 and
    the configuration file wires the campaign [camp1] to the ad platform. *)
Definition accepting_env : Env :=
  {| env_utcnow := λ n, 1000 + Z.of_nat n;
     env_uuid4 := λ n, "uuid-" +:+ pretty n;
     env_http_post := λ _, {[ "status" := PInt 200; "body" := PStr "ok" ]};
     env_integrations := λ _,
       Some {[ "yandex_direct" :=
                 PDict {[ "campaigns" :=
                            PList [PDict {[ "campaign_id" := PStr "camp1";
                                            "oauth_token" := PStr "token" ]}]
                       ]} ]};
     env_str := λ _, "{'status': 200, 'body': 'ok'}" |}.

(** A lead that came without a campaign, alone in its world. *)
Definition orphan_lead : Lead.t :=
  Lead.mk (Some 1) "lead_00000000" None "default" ∅ "new" None
          PNone PNone 500 500.

Definition orphan_world : World := mkWorld [] [] [orphan_lead] [] 0 0 0 0.

(** A form filled in for the campaign [camp7]. *)
Definition sample_form : LeadFormData.t :=
  LeadFormData.mk (Some "Ann") (Some "a@b.com") None (Some "camp7")
    (Some "default") None None None ∅.

(** Two campaigns with rollups, the second ahead in leads. *)
Definition camp1_stat : CampaignStat.t :=
  CampaignStat.mk (Some 1) "camp1" 3 1 100 (Some 700) (Some 800) 600 800.

Definition camp2_stat : CampaignStat.t :=
  CampaignStat.mk (Some 2) "camp2" 5 0 0 (Some 900) None 650 900.

Definition stats_world : World :=
  mkWorld [] [] [] [camp1_stat; camp2_stat] 0 0 0 0.

(** The world [turns] turns of the worker later, and its first task. *)
Definition crm_world_after (turns : nat) : World :=
  (background_task_processor turns sample_env crm_world).2.

Definition first_task (w : World) : option Task.t := tasks w !! 0%nat.

(** * Properties *)

(** ** Running operations *)

Section run.
Context {A B : Type}.

Lemma run_bind_ok (m : M A) (f : A → M B) env w a w' :
  m env w = (Ok a, w') → (m ≫= f) env w = f a env w'.
Proof. intros Hm. unfold mbind, M_bind. by rewrite Hm. Qed.

Lemma run_bind_raise (m : M A) (f : A → M B) env w e w' :
  m env w = (Raise e, w') → (m ≫= f) env w = (Raise e, w').
Proof. intros Hm. unfold mbind, M_bind. by rewrite Hm. Qed.

Lemma run_try_ok (body : M A) handler env w a w' :
  body env w = (Ok a, w') → try_except body handler env w = (Ok a, w').
Proof. intros Hm. unfold try_except. by rewrite Hm. Qed.

Lemma run_try_raise (body : M A) handler env w e w' :
  body env w = (Raise e, w') →
  try_except body handler env w = handler e env w'.
Proof. intros Hm. unfold try_except. by rewrite Hm. Qed.

Lemma run_bind_assoc {C} (m : M A) (f : A → M B) (g : B → M C) env w :
  ((m ≫= f) ≫= g) env w = (m ≫= λ a, f a ≫= g) env w.
Proof. unfold mbind, M_bind. by destruct (m env w) as [[a|e] w']. Qed.

End run.

Lemma load_integrations_run env w :
  load_integrations env w
  = (Ok (default ∅ (env_integrations env (file_reads w))),
     set_file_reads (S (file_reads w)) w).
Proof. reflexivity. Qed.

Lemma http_post_run env w :
  http_post env w
  = (Ok (env_http_post env (http_posts w)),
     set_http_posts (S (http_posts w)) w).
Proof. reflexivity. Qed.

(** ** What an operation leaves standing *)

Section maintains.
Context (Q : World → Prop).

Lemma maintains_ret {A} (a : A) : maintains Q (mret a).
Proof. by intros env w. Qed.

Lemma maintains_raise {A} e : maintains Q (raise e : M A).
Proof. by intros env w. Qed.

Lemma maintains_bind {A B} (m : M A) (f : A → M B) :
  maintains Q m → (∀ a, maintains Q (f a)) → maintains Q (m ≫= f).
Proof.
  intros Hm Hf env w HQ. specialize (Hm env w HQ).
  unfold mbind, M_bind. destruct (m env w) as [[a|e] w']; simpl in *.
  - by apply Hf.
  - done.
Qed.

Lemma maintains_fmap {A B} (g : A → B) (m : M A) :
  maintains Q m → maintains Q (g <$> m).
Proof. intros Hm. apply maintains_bind; [done|]. intros a. apply maintains_ret. Qed.

Lemma maintains_try {A} (body : M A) handler :
  maintains Q body → (∀ e, maintains Q (handler e)) →
  maintains Q (try_except body handler).
Proof.
  intros Hm Hh env w HQ. specialize (Hm env w HQ).
  unfold try_except. destruct (body env w) as [[a|e] w']; simpl in *.
  - done.
  - by apply Hh.
Qed.

Lemma maintains_for_each {A} (l : list A) body :
  (∀ x, x ∈ l → maintains Q (body x)) → maintains Q (for_each l body).
Proof.
  induction l as [|x l IH]; intros Hbody; simpl.
  - apply maintains_ret.
  - apply maintains_bind.
    + apply Hbody. left.
    + intros _. apply IH. intros y Hy. apply Hbody. by right.
Qed.

Lemma maintains_get_world : maintains Q get_world.
Proof. by intros env w. Qed.

Lemma maintains_ask_env : maintains Q ask_env.
Proof. by intros env w. Qed.

Lemma maintains_update_world f :
  (∀ w, Q w → Q (f w)) → maintains Q (update_world f).
Proof. intros Hf env w HQ. by apply Hf. Qed.

Lemma maintains_scalar_one_or_none {A} (rows : list A) :
  maintains Q (scalar_one_or_none rows).
Proof. destruct rows as [|? [|? ?]]; by intros env w. Qed.

End maintains.

(** ** Queries: selection *)

Section select.
Context {A : Type} (P : A → Prop) `{!∀ x, Decision (P x)}.

Lemma elem_of_select_from n (table : list A) i x :
  (i, x) ∈ select_from P n table ↔
  ∃ k, i = (n + k)%nat ∧ table !! k = Some x ∧ P x.
Proof.
  revert n. induction table as [|y table IH]; intros n; simpl.
  - split; [by intros ?%elem_of_nil | by intros (k & _ & ? & _)].
  - assert ((i, x) ∈ select_from P (S n) table ↔
            ∃ k, i = (n + S k)%nat ∧ table !! k = Some x ∧ P x) as IH'.
    { rewrite IH. split; intros (k & -> & ? & ?); exists k;
        (split; [lia | done]). }
    destruct (decide (P y)) as [Hy|Hy].
    + rewrite elem_of_cons, IH'. split.
      * intros [[= -> ->] | (k & -> & ? & ?)].
        -- exists 0%nat. split; [lia | done].
        -- by exists (S k).
      * intros ([|k] & -> & Hk & HP); simpl in Hk.
        -- left. injection Hk as ->. f_equal. lia.
        -- right. by exists k.
    + rewrite IH'. split.
      * intros (k & -> & ? & ?). by exists (S k).
      * intros ([|k] & -> & Hk & HP); simpl in Hk.
        -- injection Hk as ->. done.
        -- by exists k.
Qed.

Lemma elem_of_select_where (table : list A) i x :
  (i, x) ∈ select_where P table ↔ table !! i = Some x ∧ P x.
Proof.
  unfold select_where. rewrite elem_of_select_from. split.
  - by intros (k & -> & ? & ?).
  - intros [? ?]. by exists i.
Qed.

Lemma select_from_snd n (table : list A) :
  (select_from P n table).*2 = filter P table.
Proof.
  revert n. induction table as [|y table IH]; intros n; simpl; [done|].
  rewrite filter_cons. destruct (decide (P y)); simpl; by rewrite IH.
Qed.

Lemma select_where_snd (table : list A) :
  (select_where P table).*2 = filter P table.
Proof. apply select_from_snd. Qed.

Lemma select_from_none n (table : list A) :
  (∀ k x, table !! k = Some x → ¬ P x) → select_from P n table = [].
Proof.
  revert n. induction table as [|y table IH]; intros n Hno; simpl; [done|].
  destruct (decide (P y)) as [Hy|Hy].
  - by destruct (Hno 0%nat y).
  - apply IH. intros k x Hk. by apply (Hno (S k)).
Qed.

Lemma select_from_unique n (table : list A) i x :
  table !! i = Some x → P x →
  (∀ k y, table !! k = Some y → P y → k = i) →
  select_from P n table = [((n + i)%nat, x)].
Proof.
  revert n i. induction table as [|y table IH]; intros n i Hi Hx Huniq.
  - done.
  - simpl. destruct i as [|i]; simpl in Hi.
    + injection Hi as ->. rewrite decide_True by done.
      rewrite select_from_none.
      * do 2 f_equal. lia.
      * intros k z Hk Hz. by specialize (Huniq (S k) z Hk Hz).
    + destruct (decide (P y)) as [Hy|Hy].
      * by specialize (Huniq 0%nat y eq_refl Hy).
      * rewrite (IH (S n) i Hi Hx).
        -- do 2 f_equal. lia.
        -- intros k z Hk Hz. specialize (Huniq (S k) z Hk Hz). lia.
Qed.

Lemma select_where_unique (table : list A) i x :
  table !! i = Some x → P x →
  (∀ k y, table !! k = Some y → P y → k = i) →
  select_where P table = [(i, x)].
Proof. intros. unfold select_where. by erewrite select_from_unique. Qed.

Lemma select_where_singleton (table : list A) i x :
  select_where P table = [(i, x)] →
  table !! i = Some x ∧ P x ∧ ∀ k y, table !! k = Some y → P y → k = i.
Proof.
  intros Hsel.
  assert ((i, x) ∈ select_where P table) as Hin by (rewrite Hsel; left).
  apply elem_of_select_where in Hin as [? ?]. split_and!; [done..|].
  intros k y Hk Hy.
  assert ((k, y) ∈ select_where P table) as Hin
    by by apply elem_of_select_where.
  rewrite Hsel in Hin. by apply list_elem_of_singleton in Hin as [= -> ->].
Qed.

(** The positions of the selected rows increase strictly. *)
Lemma select_from_positions n (table : list A) :
  StronglySorted (λ r s : nat * A, (r.1 < s.1)%nat) (select_from P n table) ∧
  Forall (λ r, (n ≤ r.1)%nat) (select_from P n table).
Proof.
  revert n. induction table as [|y table IH]; intros n; simpl.
  - split; constructor.
  - destruct (IH (S n)) as [Hs Hf]. destruct (decide (P y)).
    + split.
      * constructor; [done|]. eapply Forall_impl; [exact Hf|].
        intros r Hr; simpl in *. lia.
      * constructor; [simpl; lia|]. eapply Forall_impl; [exact Hf|].
        intros r Hr; simpl in *. lia.
    + split; [done|]. eapply Forall_impl; [exact Hf|].
      intros r Hr; simpl in *. lia.
Qed.

End select.

(** ** Queries: ordering *)

Section ordering.
Context {A : Type} (key : A → Z).

Local Abbreviation key_le := (key_le key).

Lemma insert_by_perm x (l : list A) : insert_by key x l ≡ₚ x :: l.
Proof.
  induction l as [|y l IH]; simpl; [done|].
  destruct (key x <=? key y); [done|].
  rewrite IH. apply Permutation_swap.
Qed.

Lemma order_by_perm (l : list A) : order_by key l ≡ₚ l.
Proof.
  induction l as [|x l IH]; simpl; [done|].
  by rewrite insert_by_perm, IH.
Qed.

Lemma order_by_length (l : list A) : length (order_by key l) = length l.
Proof. by rewrite order_by_perm. Qed.

Lemma insert_by_sorted x (l : list A) :
  StronglySorted key_le l → StronglySorted key_le (insert_by key x l).
Proof.
  induction 1 as [|y l Hl IH Hy]; simpl.
  - repeat constructor.
  - destruct (key x <=? key y) eqn:Hxy.
    + apply Z.leb_le in Hxy. constructor; [by constructor|].
      constructor; [done|]. eapply Forall_impl; [exact Hy|].
      unfold key_le. intros; lia.
    + apply Z.leb_gt in Hxy. constructor; [done|].
      rewrite insert_by_perm. constructor; [unfold key_le; lia | done].
Qed.

Lemma order_by_sorted (l : list A) : StronglySorted key_le (order_by key l).
Proof.
  induction l as [|x l IH]; simpl; [constructor|]. by apply insert_by_sorted.
Qed.

(** Stability: the rows of any one key keep their relative order. *)
Lemma insert_by_stable z x (l : list A) :
  filter (λ a, key a = z) (insert_by key x l) =
  filter (λ a, key a = z) (x :: l).
Proof.
  induction l as [|y l IH]; simpl; [done|].
  destruct (key x <=? key y) eqn:Hxy; [done|].
  apply Z.leb_gt in Hxy.
  rewrite (filter_cons _ y), IH, !filter_cons.
  repeat case_decide; (done || lia).
Qed.

Lemma order_by_stable z (l : list A) :
  filter (λ a, key a = z) (order_by key l) = filter (λ a, key a = z) l.
Proof.
  induction l as [|x l IH]; simpl; [done|].
  by rewrite insert_by_stable, !filter_cons, IH.
Qed.

(** Rows that are scanned in key order come back as scanned. *)
Lemma order_by_sorted_id (l : list A) :
  StronglySorted key_le l → order_by key l = l.
Proof.
  induction 1 as [|x l Hl IH Hx]; simpl; [done|].
  rewrite IH. destruct Hx as [|y l Hxy _]; simpl; [done|].
  unfold key_le in Hxy. by rewrite (proj2 (Z.leb_le _ _) Hxy).
Qed.

End ordering.

Section ordering_rows.
Context {A : Type} (key : A → Z).

Local Abbreviation rkey := (λ r : nat * A, key r.2).

Lemma insert_by_rows r (l : list (nat * A)) :
  StronglySorted (key_then_position key) l →
  Forall (λ s, (r.1 < s.1)%nat) l →
  StronglySorted (key_then_position key) (insert_by rkey r l).
Proof.
  induction 1 as [|s l Hl IH Hs]; intros Hr; simpl.
  - repeat constructor.
  - apply Forall_cons in Hr as [Hrs Hr].
    destruct (key r.2 <=? key s.2) eqn:Hle.
    + apply Z.leb_le in Hle. constructor; [by constructor|].
      constructor.
      * unfold key_then_position. lia.
      * rewrite Forall_forall in Hs, Hr |- *. intros u Hu.
        specialize (Hs u Hu). specialize (Hr u Hu).
        unfold key_then_position in *. lia.
    + apply Z.leb_gt in Hle. constructor; [by apply IH|].
      rewrite insert_by_perm. constructor; [|done].
      unfold key_then_position. lia.
Qed.

Lemma order_by_rows (l : list (nat * A)) :
  StronglySorted (λ r s : nat * A, (r.1 < s.1)%nat) l →
  StronglySorted (key_then_position key) (order_by rkey l).
Proof.
  induction 1 as [|r l Hl IH Hr]; simpl; [constructor|].
  apply insert_by_rows; [done|]. by rewrite order_by_perm.
Qed.

End ordering_rows.

(** ** TaskQueue.get_pending_tasks *)

Lemma get_pending_tasks_run limit env w :
  TaskQueue.get_pending_tasks limit env w =
  (Ok (take limit
         (order_by (λ r, Task.scheduled_at r.2)
            (select_where (TaskQueue.ready (env_utcnow env (clock_reads w)))
               (tasks w)))),
   set_clock_reads (S (clock_reads w)) w).
Proof. reflexivity. Qed.

Lemma elem_of_get_pending_tasks limit env w result w' pos t :
  TaskQueue.get_pending_tasks limit env w = (Ok result, w') →
  (pos, t) ∈ result →
  tasks w !! pos = Some t ∧
  TaskQueue.ready (env_utcnow env (clock_reads w)) t.
Proof.
  rewrite get_pending_tasks_run. intros [= <- <-] Hin.
  apply elem_of_take in Hin as (i & Hin & _).
  apply list_elem_of_lookup_2 in Hin. rewrite order_by_perm in Hin.
  by apply elem_of_select_where in Hin.
Qed.

(** C5.  [get_pending_tasks limit] returns the first [limit] of the tasks
    that are pending and scheduled no later than the clock reading, taken in
    ascending order of [scheduled_at] and, among tasks scheduled at the same
    instant, in insertion order: [result ++ rest] lists exactly the ready
    rows, strictly ordered by (scheduled_at, position), and [result] is its
    prefix of length [min limit _].  In particular, of three pending tasks
    scheduled one second ago, two seconds ago and ten seconds ahead, a call
    with limit 5 returns the second and then the first. *)
Theorem get_pending_tasks_ready_in_order env w limit :
  let now := env_utcnow env (clock_reads w) in
  ∃ result rest,
    (TaskQueue.get_pending_tasks limit env w).1 = Ok result ∧
    (∀ pos t, (pos, t) ∈ result ++ rest ↔
       tasks w !! pos = Some t ∧
       Task.status t = PENDING ∧ Task.scheduled_at t ≤ now) ∧
    StronglySorted (key_then_position Task.scheduled_at) (result ++ rest) ∧
    length result = (limit `min` length (result ++ rest))%nat ∧
    (∀ t1 t2 t3,
       tasks w = [t1; t2; t3] →
       Task.status t1 = PENDING → Task.status t2 = PENDING →
       Task.status t3 = PENDING →
       Task.scheduled_at t1 = now - timedelta_seconds 1 →
       Task.scheduled_at t2 = now - timedelta_seconds 2 →
       Task.scheduled_at t3 = now + timedelta_seconds 10 →
       limit = 5%nat →
       result = [(1%nat, t2); (0%nat, t1)]).
Proof.
  intros now.
  set (sorted := order_by (λ r : nat * Task.t, Task.scheduled_at r.2)
                   (select_where (TaskQueue.ready now) (tasks w))).
  exists (take limit sorted), (drop limit sorted).
  rewrite take_drop. split_and!.
  - by rewrite get_pending_tasks_run.
  - intros pos t. unfold sorted. rewrite order_by_perm.
    apply (elem_of_select_where (TaskQueue.ready now)).
  - apply (order_by_rows Task.scheduled_at).
    apply (select_from_positions (TaskQueue.ready now) 0).
  - apply length_take.
  - intros t1 t2 t3 Htasks H1 H2 H3 Hs1 Hs2 Hs3 ->.
    unfold sorted, select_where, timedelta_seconds in *.
    rewrite Htasks. simpl.
    rewrite !decide_True by (unfold TaskQueue.ready; split; [done | lia]).
    rewrite decide_False by (unfold TaskQueue.ready; lia).
    simpl. rewrite Hs1, Hs2.
    by rewrite (proj2 (Z.leb_gt _ _)) by lia.
Qed.

(** ** TaskQueue.update_task_status *)

Lemma update_task_status_found id st err res env w pos t :
  select_where (has_task_id id) (tasks w) = [(pos, t)] →
  TaskQueue.update_task_status id st err res env w =
  (Ok tt,
   set_tasks
     (<[pos := transitioned st err res (env_utcnow env (clock_reads w)) t]>
        (tasks w))
     (after_transition_clock st w)).
Proof.
  intros Hsel. unfold TaskQueue.update_task_status, TaskQueue.get_task_by_id.
  cbv [mbind M_bind get_world]. rewrite Hsel. by destruct st, t, w.
Qed.

Lemma update_task_status_missing id st err res env w :
  select_where (has_task_id id) (tasks w) = [] →
  TaskQueue.update_task_status id st err res env w =
  (Raise (ValueError ("Task " +:+ id +:+ " not found")), w).
Proof.
  intros Hsel. unfold TaskQueue.update_task_status, TaskQueue.get_task_by_id.
  cbv [mbind M_bind get_world]. by rewrite Hsel.
Qed.

Lemma update_task_status_ambiguous id st err res env w r1 r2 rows :
  select_where (has_task_id id) (tasks w) = r1 :: r2 :: rows →
  TaskQueue.update_task_status id st err res env w =
  (Raise MultipleResultsFound, w).
Proof.
  intros Hsel. unfold TaskQueue.update_task_status, TaskQueue.get_task_by_id.
  cbv [mbind M_bind get_world]. by rewrite Hsel.
Qed.

(** A call either raises and leaves the world as it was, or finds exactly one
    row of that [task_id] and rewrites it. *)
Lemma update_task_status_cases id st err res env w :
  (∃ e, TaskQueue.update_task_status id st err res env w = (Raise e, w)) ∨
  (∃ pos t,
     select_where (has_task_id id) (tasks w) = [(pos, t)] ∧
     TaskQueue.update_task_status id st err res env w =
     (Ok tt,
      set_tasks
        (<[pos := transitioned st err res (env_utcnow env (clock_reads w)) t]>
           (tasks w))
        (after_transition_clock st w))).
Proof.
  destruct (select_where (has_task_id id) (tasks w))
    as [|[pos t] [|r2 rows]] eqn:Hsel.
  - left. eexists. by apply update_task_status_missing.
  - right. exists pos, t. split; [done|]. by apply update_task_status_found.
  - left. eexists. by eapply update_task_status_ambiguous.
Qed.

Lemma tasks_after_transition_clock st w :
  tasks (after_transition_clock st w) = tasks w.
Proof. by destruct st. Qed.

(** A successful call on the [task_id] of a stored row rewrites that row. *)
Lemma update_task_status_ok id st err res env w w' pos t :
  TaskQueue.update_task_status id st err res env w = (Ok tt, w') →
  tasks w !! pos = Some t → Task.task_id t = id →
  select_where (has_task_id id) (tasks w) = [(pos, t)] ∧
  w' = set_tasks
         (<[pos := transitioned st err res (env_utcnow env (clock_reads w)) t]>
            (tasks w))
         (after_transition_clock st w).
Proof.
  intros Hrun Hpos Hid.
  destruct (update_task_status_cases id st err res env w)
    as [[e He] | (pos' & t' & Hsel & Hok)]; [congruence|].
  destruct (select_where_singleton _ _ _ _ Hsel) as (Hpos' & _ & Huniq).
  assert (pos = pos') as <- by by eapply Huniq.
  assert (t' = t) as -> by congruence.
  split; [done | congruence].
Qed.

(** C9.  [get_pending_tasks] only reads: it returns, and the four tables are
    afterwards what they were, so every returned task is still stored as
    returned, pending, with its attempts and timestamps.  A returned task
    becomes processing by the worker's later [update_task_status] call, which
    is the step that rewrites its row. *)
Theorem get_pending_tasks_reads_only env w limit :
  ∃ result w',
    TaskQueue.get_pending_tasks limit env w = (Ok result, w') ∧
    same_tables w w' ∧
    (∀ pos t, (pos, t) ∈ result →
       tasks w' !! pos = Some t ∧ Task.status t = PENDING) ∧
    (∀ pos t w'', (pos, t) ∈ result →
       TaskQueue.update_task_status (Task.task_id t) PROCESSING None None
         env w' = (Ok tt, w'') →
       tasks w'' !! pos =
       Some (transitioned PROCESSING None None
               (env_utcnow env (clock_reads w')) t)).
Proof.
  eexists _, _. split; [apply get_pending_tasks_run|].
  split; [done|].
  assert (∀ pos t,
    (pos, t) ∈ take limit
      (order_by (λ r : nat * Task.t, Task.scheduled_at r.2)
         (select_where (TaskQueue.ready (env_utcnow env (clock_reads w)))
            (tasks w))) →
    tasks w !! pos = Some t ∧ Task.status t = PENDING) as Hstored.
  { intros pos t Hin.
    destruct (elem_of_get_pending_tasks limit env w _ _ pos t
                (get_pending_tasks_run limit env w) Hin) as [? [? _]].
    done. }
  split; [exact Hstored|].
  intros pos t w'' Hin Hrun. destruct (Hstored pos t Hin) as [Hpos _].
  destruct (update_task_status_ok _ _ _ _ _ _ _ pos t Hrun Hpos eq_refl)
    as [_ ->].
  simpl. apply list_lookup_insert_eq. by eapply lookup_lt_Some.
Qed.

Lemma stored_once_select w pos t :
  stored_once w pos t →
  select_where (has_task_id (Task.task_id t)) (tasks w) = [(pos, t)].
Proof. intros [Hpos Huniq]. by apply select_where_unique. Qed.

Lemma stored_once_transitioned w pos t st err res now :
  stored_once w pos t →
  stored_once
    (set_tasks (<[pos := transitioned st err res now t]> (tasks w))
       (after_transition_clock st w))
    pos (transitioned st err res now t).
Proof.
  intros [Hpos Huniq]. split; simpl.
  - apply list_lookup_insert_eq. by eapply lookup_lt_Some.
  - intros k y Hk Hy. destruct (decide (k = pos)) as [|Hne]; [done|].
    rewrite list_lookup_insert_ne in Hk by done. by eapply Huniq.
Qed.

Lemma update_task_status_stored_once st err res env w pos t :
  stored_once w pos t →
  TaskQueue.update_task_status (Task.task_id t) st err res env w =
  (Ok tt,
   set_tasks
     (<[pos := transitioned st err res (env_utcnow env (clock_reads w)) t]>
        (tasks w))
     (after_transition_clock st w)).
Proof. intros H. by apply update_task_status_found, stored_once_select. Qed.

(** ** The worker on one task *)

(** C10.  A claimed task whose type is neither send-to-CRM nor
    send-conversion is moved to processing and then straight to completed
    with no result: no handler runs (no lead, event or campaign row changes,
    nothing is posted, no file is read), and the row's error message stays
    as it was. *)
Theorem process_task_without_handler env w pos t :
  stored_once w pos t →
  Task.task_type t ≠ SEND_TO_CRM →
  Task.task_type t ≠ SEND_TO_YANDEX_DIRECT →
  let now1 := env_utcnow env (clock_reads w) in
  let now2 := env_utcnow env (S (clock_reads w)) in
  let processing := transitioned PROCESSING None None now1 t in
  let completed := transitioned COMPLETED None None now2 processing in
  ∃ w1 w2,
    TaskQueue.update_task_status (Task.task_id t) PROCESSING None None env w
      = (Ok tt, w1) ∧
    tasks w1 !! pos = Some processing ∧
    TaskQueue.update_task_status (Task.task_id t) COMPLETED None None env w1
      = (Ok tt, w2) ∧
    process_task (pos, t) env w = (Ok tt, w2) ∧
    tasks w2 = <[pos := completed]> (tasks w) ∧
    Task.status completed = COMPLETED ∧
    Task.result completed = None ∧
    Task.error_message completed = Task.error_message t ∧
    events w2 = events w ∧ leads w2 = leads w ∧
    campaign_stats w2 = campaign_stats w ∧
    http_posts w2 = http_posts w ∧ file_reads w2 = file_reads w ∧
    uuids_drawn w2 = uuids_drawn w.
Proof.
  intros Hstored Hcrm Hyd now1 now2 processing completed.
  pose proof (update_task_status_stored_once PROCESSING None None env _ _ _
                Hstored) as Hrun1.
  pose proof (stored_once_transitioned _ _ _ PROCESSING None None now1
                Hstored) as Hstored1.
  fold processing in Hrun1, Hstored1.
  pose proof (update_task_status_stored_once COMPLETED None None env _ _ _
                Hstored1) as Hrun2.
  change (Task.task_id processing) with (Task.task_id t) in Hrun2.
  eexists _, _. split; [exact Hrun1|].
  split; [apply Hstored1|].
  split; [exact Hrun2|].
  split.
  { unfold process_task. apply run_try_ok. simpl.
    rewrite (run_bind_ok _ _ _ _ _ _ Hrun1).
    destruct (Task.task_type t); [done | done |].
    exact Hrun2. }
  split; [simpl; by rewrite list_insert_insert_eq|].
  done.
Qed.

(** ** The handlers do not touch the task table *)

Create HintDb maintains discriminated.

Ltac maintains_step :=
  first
    [ apply maintains_ret | apply maintains_raise
    | apply maintains_get_world | apply maintains_ask_env
    | apply maintains_scalar_one_or_none
    | solve [eauto 2 with maintains]
    | apply maintains_bind | apply maintains_try | apply maintains_fmap
    | match goal with
      | |- maintains _ (match ?x with _ => _ end) => destruct x
      | |- maintains _ (let _ := _ in _) => cbv zeta
      end ].

Ltac solve_maintains := repeat (intros; maintains_step).

Section handlers_keep_tasks.
Context (Q : list Task.t → Prop).

Lemma utcnow_keeps_tasks : maintains (on_tasks Q) utcnow.
Proof. by intros env w. Qed.

Lemma uuid4_keeps_tasks : maintains (on_tasks Q) uuid4.
Proof. by intros env w. Qed.

Lemma http_post_keeps_tasks : maintains (on_tasks Q) http_post.
Proof. by intros env w. Qed.

Lemma load_integrations_keeps_tasks : maintains (on_tasks Q) load_integrations.
Proof. by intros env w. Qed.

Lemma sleep_keeps_tasks : maintains (on_tasks Q) sleep.
Proof. by intros env w. Qed.

Local Hint Resolve utcnow_keeps_tasks uuid4_keeps_tasks http_post_keeps_tasks
  load_integrations_keeps_tasks sleep_keeps_tasks : maintains.

Lemma set_events_keeps_tasks v :
  maintains (on_tasks Q) (update_world (set_events v)).
Proof. by intros env w. Qed.

Lemma set_leads_keeps_tasks v :
  maintains (on_tasks Q) (update_world (set_leads v)).
Proof. by intros env w. Qed.

Local Hint Resolve set_events_keeps_tasks set_leads_keeps_tasks : maintains.

Lemma get_lead_keeps_tasks lead_id :
  maintains (on_tasks Q) (LeadService.get_lead lead_id).
Proof. unfold LeadService.get_lead. solve_maintains. Qed.

Local Hint Resolve get_lead_keeps_tasks : maintains.

Lemma update_lead_status_keeps_tasks lead_id status crm_id payment_data :
  maintains (on_tasks Q)
    (LeadService.update_lead_status lead_id status crm_id payment_data).
Proof. unfold LeadService.update_lead_status. solve_maintains. Qed.

Lemma save_event_keeps_tasks aggregate_id event_type payload metadata :
  maintains (on_tasks Q)
    (EventStore.save_event aggregate_id event_type payload metadata).
Proof. unfold EventStore.save_event, EventStore.insert. solve_maintains. Qed.

Local Hint Resolve update_lead_status_keeps_tasks save_event_keeps_tasks
  : maintains.

Lemma send_lead_keeps_tasks crm_config lead_data :
  maintains (on_tasks Q) (send_lead crm_config lead_data).
Proof. apply http_post_keeps_tasks. Qed.

Lemma send_conversion_keeps_tasks config campaign_id lead_id ty value :
  maintains (on_tasks Q) (send_conversion config campaign_id lead_id ty value).
Proof. unfold send_conversion. solve_maintains. Qed.

Local Hint Resolve send_lead_keeps_tasks send_conversion_keeps_tasks
  : maintains.

Lemma process_crm_task_keeps_tasks lead_id crm_config :
  maintains (on_tasks Q) (process_crm_task lead_id crm_config).
Proof. unfold process_crm_task. solve_maintains. Qed.

Lemma process_yandex_direct_task_keeps_tasks lead_id payment_amount :
  maintains (on_tasks Q) (process_yandex_direct_task lead_id payment_amount).
Proof. unfold process_yandex_direct_task. solve_maintains. Qed.

End handlers_keep_tasks.

#[local] Hint Resolve utcnow_keeps_tasks sleep_keeps_tasks
  process_crm_task_keeps_tasks process_yandex_direct_task_keeps_tasks
  : maintains.

(** ** The worker leaves the rows outside its batch alone *)

Section batch.
Context (batch : list (nat * Task.t)) (pos : nat) (t : Task.t).
Hypothesis batch_elsewhere : ∀ j tj, (j, tj) ∈ batch → j ≠ pos.

Lemma update_task_status_batch_frame j tj st err res :
  (j, tj) ∈ batch →
  maintains (on_tasks (batch_frame batch pos t))
    (TaskQueue.update_task_status (Task.task_id tj) st err res).
Proof.
  intros Hin env w [Hpos Hbatch].
  destruct (update_task_status_cases (Task.task_id tj) st err res env w)
    as [[e ->] | (p & t0 & Hsel & ->)]; [done|].
  destruct (select_where_singleton _ _ _ _ Hsel) as (Hp & Hid & Huniq).
  destruct (Hbatch j tj Hin) as (t' & Hj & Hidj).
  assert (j = p) as -> by by eapply Huniq.
  split; simpl.
  - rewrite list_lookup_insert_ne; [done|]. by eapply batch_elsewhere.
  - intros j2 tj2 Hin2. destruct (Hbatch j2 tj2 Hin2) as (t2 & Hj2 & Hid2).
    destruct (decide (j2 = p)) as [->|Hne].
    + eexists. split.
      * apply list_lookup_insert_eq. by eapply lookup_lt_Some.
      * simpl. congruence.
    + exists t2. by rewrite list_lookup_insert_ne.
Qed.

Lemma current_attempts_keeps_tasks Q task :
  maintains (on_tasks Q) (current_attempts task).
Proof. by intros env w. Qed.

Lemma process_task_batch_frame j tj :
  (j, tj) ∈ batch →
  maintains (on_tasks (batch_frame batch pos t)) (process_task (j, tj)).
Proof.
  intros Hin. unfold process_task. simpl.
  pose proof (update_task_status_batch_frame j tj) as Hupd.
  pose proof current_attempts_keeps_tasks as Hcur.
  solve_maintains.
Qed.

Lemma for_each_batch_frame :
  maintains (on_tasks (batch_frame batch pos t)) (for_each batch process_task).
Proof.
  apply maintains_for_each. intros [j tj] Hin.
  by apply process_task_batch_frame.
Qed.

End batch.

(** ** Terminal states *)

Lemma worker_pass_keeps_terminal env w pos t :
  tasks w !! pos = Some t →
  Task.status t ≠ PENDING →
  tasks (worker_pass env w).2 !! pos = Some t.
Proof.
  intros Hpos Hterminal.
  destruct (TaskQueue.get_pending_tasks 5 env w) as [out w0] eqn:Hpoll.
  pose proof Hpoll as Hrun. rewrite get_pending_tasks_run in Hrun.
  destruct out as [batch|e]; [|done]. injection Hrun as _ Hw0.
  assert (∀ j tj, (j, tj) ∈ batch → tasks w !! j = Some tj ∧ j ≠ pos)
    as Hbatch.
  { intros j tj Hin.
    destruct (elem_of_get_pending_tasks _ _ _ _ _ _ _ Hpoll Hin)
      as [Hj [Hpending _]].
    split; [done|]. intros ->. congruence. }
  assert (on_tasks (batch_frame batch pos t) w0) as Hframe.
  { subst w0. split; simpl; [done|].
    intros j tj Hin. exists tj. split; [by apply Hbatch | done]. }
  apply (for_each_batch_frame batch pos t
           (λ j tj Hin, proj2 (Hbatch j tj Hin)) env) in Hframe.
  unfold worker_pass, try_except.
  rewrite (run_bind_ok _ _ _ _ _ _ Hpoll).
  unfold mbind, M_bind.
  destruct (for_each batch process_task env w0) as [[[]|e] w1];
    apply Hframe.
Qed.

(** C1, as the code has it.  [update_task_status] has no guard on the
    current status: on a stored task it sets the status it is given, also
    when the task is completed or failed.  The two states are terminal for
    the worker loop, which only moves tasks it found pending: no number of
    its turns changes a completed or failed task. *)
Theorem terminal_for_the_worker_only env w pos t :
  tasks w !! pos = Some t →
  Task.status t = COMPLETED ∨ Task.status t = FAILED →
  (∀ turns,
     tasks (background_task_processor turns env w).2 !! pos = Some t) ∧
  (stored_once w pos t →
   ∀ status error_message result,
     ∃ w' t',
       TaskQueue.update_task_status (Task.task_id t) status error_message
         result env w = (Ok tt, w') ∧
       tasks w' !! pos = Some t' ∧ Task.status t' = status).
Proof.
  intros Hpos Hterminal. split.
  - intros turns. revert w Hpos.
    induction turns as [|turns IH]; intros w Hpos; simpl; [done|].
    assert (Task.status t ≠ PENDING) as Hnp by (destruct Hterminal; congruence).
    pose proof (worker_pass_keeps_terminal env w pos t Hpos Hnp) as Hpass.
    unfold mbind, M_bind.
    destruct (worker_pass env w) as [[[]|e] w1]; simpl in *; [|done].
    by apply IH.
  - intros Hstored status error_message result.
    eexists _, _. split; [by apply update_task_status_stored_once|].
    split.
    + simpl. apply list_lookup_insert_eq. by eapply lookup_lt_Some.
    + reflexivity.
Qed.

(** An instance: three turns of the worker over a table that holds a
    completed task and two pending ones. *)
Lemma terminal_for_the_worker_only_witness :
  tasks (background_task_processor 3 sample_env done_world).2 !! 0%nat
  = Some done_task.
Proof.
  apply (proj1 (terminal_for_the_worker_only sample_env done_world 0 done_task
                  eq_refl (or_introl eq_refl))).
Defined.

(** C1, as stated, fails: a completed task is pending again after
    [update_task_status] is called on it with [PENDING]. *)
Lemma completed_task_reopened :
  Task.status <$> tasks done_world !! 0%nat = Some COMPLETED ∧
  Task.status <$>
    tasks (TaskQueue.update_task_status "task-1" PENDING None None
             sample_env done_world).2 !! 0%nat = Some PENDING.
Proof. split; reflexivity. Qed.

(** ** Attempts *)

Lemma create_task_run task_type payload delay env w :
  TaskQueue.create_task task_type payload delay env w =
  let t := Task.mk (next_id (tasks w)) (env_uuid4 env (uuids_drawn w))
             task_type payload PENDING 0 3 None None
             (env_utcnow env (clock_reads w) + timedelta_seconds delay)
             None None in
  (Ok t,
   set_tasks (tasks w ++ [t])
     (set_clock_reads (S (clock_reads w))
        (set_uuids_drawn (S (uuids_drawn w)) w))).
Proof. reflexivity. Qed.

Lemma stored_once_appended w w' t :
  Forall (λ y, Task.task_id y ≠ Task.task_id t) (tasks w) →
  tasks w' = tasks w ++ [t] →
  stored_once w' (length (tasks w)) t.
Proof.
  intros Hfresh Htasks. unfold stored_once. rewrite Htasks. split.
  - by rewrite lookup_app_r, Nat.sub_diag.
  - intros k y Hk Hid.
    destruct (decide (k < length (tasks w))%nat) as [Hlt|Hge].
    + rewrite lookup_app_l in Hk by done.
      rewrite Forall_forall in Hfresh.
      destruct (Hfresh y); [|done]. by eapply list_elem_of_lookup_2.
    + apply lookup_lt_Some in Hk. rewrite length_app in Hk. simpl in Hk. lia.
Qed.

Lemma apply_transitions_stored_once env steps : ∀ w pos t,
  stored_once w pos t →
  ∃ w' t',
    apply_transitions (Task.task_id t) steps env w = (Ok tt, w') ∧
    stored_once w' pos t' ∧
    Task.task_id t' = Task.task_id t ∧
    Task.attempts t' = Task.attempts t + Z.of_nat (length steps) ∧
    Task.max_attempts t' = Task.max_attempts t.
Proof.
  induction steps as [|[[st err] res] steps IH]; intros w pos t Hstored.
  - exists w, t. simpl. split_and!; [done..|lia|done].
  - pose proof (update_task_status_stored_once st err res env _ _ _ Hstored)
      as Hrun.
    pose proof (stored_once_transitioned _ _ _ st err res
                  (env_utcnow env (clock_reads w)) Hstored) as Hstored1.
    destruct (IH _ _ _ Hstored1) as (w' & t' & Hrest & Hs' & Hid & Hatt & Hmax).
    exists w', t'. split_and!; [|done|done| |done].
    + unfold apply_transitions in *. simpl.
      by rewrite (run_bind_ok _ _ _ _ _ _ Hrun).
    + rewrite Hatt. simpl. lia.
Qed.



(** ** The retry rule of the worker *)

Lemma handler_of_keeps_tasks Q t : maintains (on_tasks Q) (handler_of t).
Proof. unfold handler_of. solve_maintains. Qed.

(** When the handler raises, the worker compares the attempts counted so
    far, the transition to processing included, with [max_attempts - 1]:
    the task is marked failed when [attempts + 2 >= max_attempts] for the
    [attempts] it had when polled, and goes back to pending otherwise;
    either way it ends with two attempts more. *)
Lemma process_task_handler_raises env w pos t e wh :
  stored_once w pos t →
  let processing :=
    transitioned PROCESSING None None (env_utcnow env (clock_reads w)) t in
  handler_of t env
    (set_tasks (<[pos := processing]> (tasks w))
       (after_transition_clock PROCESSING w)) = (Raise e, wh) →
  ∃ w' t',
    process_task (pos, t) env w = (Ok tt, w') ∧
    tasks w' !! pos = Some t' ∧
    Task.attempts t' = Task.attempts t + 2 ∧
    Task.status t' =
      (if Task.attempts t + 2 >=? Task.max_attempts t then FAILED
       else PENDING) ∧
    Task.error_message t' =
      (if Task.attempts t + 2 >=? Task.max_attempts t
       then Some (str_of_exception e) else Task.error_message t).
Proof.
  intros Hstored processing Hraise.
  pose proof (update_task_status_stored_once PROCESSING None None env _ _ _
                Hstored) as Hrun1.
  fold processing in Hrun1.
  set (w1 := set_tasks _ _) in Hrun1, Hraise.
  pose proof (stored_once_transitioned _ _ _ PROCESSING None None
                (env_utcnow env (clock_reads w)) Hstored) as Hstored1.
  fold processing in Hstored1. fold w1 in Hstored1.
  assert (tasks wh = tasks w1) as Htasks.
  { pose proof (handler_of_keeps_tasks (λ l, l = tasks w1) t env w1 eq_refl)
      as Hkeep.
    by rewrite Hraise in Hkeep. }
  assert (stored_once wh pos processing) as Hstoredh.
  { unfold stored_once in *. by rewrite Htasks. }
  assert (process_task (pos, t) env w =
          (attempts ← current_attempts (pos, t);
           if attempts >=? Task.max_attempts t - 1 then
             TaskQueue.update_task_status (Task.task_id t) FAILED
               (Some (str_of_exception e)) None
           else
             TaskQueue.update_task_status (Task.task_id t) PENDING None None)
            env wh) as ->.
  { unfold process_task.
    erewrite run_try_raise; [reflexivity|]. simpl.
    rewrite (run_bind_ok _ _ _ _ _ _ Hrun1).
    apply run_bind_raise. exact Hraise. }
  assert (current_attempts (pos, t) env wh = (Ok (Task.attempts t + 1), wh))
    as Hcur.
  { unfold current_attempts. cbv [mbind M_bind get_world mret M_ret]. simpl.
    by rewrite (proj1 Hstoredh). }
  rewrite (run_bind_ok _ _ _ _ _ _ Hcur).
  replace (Task.attempts t + 1 >=? Task.max_attempts t - 1)
    with (Task.attempts t + 2 >=? Task.max_attempts t)
    by (rewrite !Z.geb_leb; apply eq_iff_eq_true;
        rewrite !Z.leb_le; lia).
  change (Task.task_id t) with (Task.task_id processing).
  destruct (Task.attempts t + 2 >=? Task.max_attempts t);
    rewrite (update_task_status_stored_once _ _ _ env _ _ _ Hstoredh);
    eexists _, _; (split; [reflexivity|]); simpl;
    (split; [apply list_lookup_insert_eq, lookup_lt_Some with processing,
             Hstoredh|]);
    simpl; split_and!; (done || lia).
Qed.



(** ** Polling and claiming *)

(** C4, as the code has it.  [get_pending_tasks] reserves nothing (it leaves
    the task table as it is); a task is withheld from a later poll only once
    [update_task_status] has moved it out of pending: the poll that follows
    a successful transition of a task to another status than pending does
    not return that task. *)
Theorem transitioned_task_not_polled env w task_id status error_message
    result w1 limit batch w2 :
  status ≠ PENDING →
  TaskQueue.update_task_status task_id status error_message result env w
    = (Ok tt, w1) →
  TaskQueue.get_pending_tasks limit env w1 = (Ok batch, w2) →
  tasks w2 = tasks w1 ∧
  Forall (λ task, Task.task_id task.2 ≠ task_id) batch.
Proof.
  intros Hst Hupd Hpoll. split.
  { rewrite get_pending_tasks_run in Hpoll. by injection Hpoll as _ <-. }
  apply Forall_forall. intros [j tj] Hin Hid.
  simpl in Hid.
  destruct (elem_of_get_pending_tasks _ _ _ _ _ _ _ Hpoll Hin)
    as [Hj [Hpending _]].
  destruct (update_task_status_cases task_id status error_message result
              env w) as [[e He] | (p & t0 & Hsel & Hok)]; [congruence|].
  rewrite Hok in Hupd. injection Hupd as <-. simpl in Hj.
  destruct (select_where_singleton _ _ _ _ Hsel) as (Hp & _ & Huniq).
  destruct (decide (j = p)) as [->|Hne].
  - rewrite list_lookup_insert_eq in Hj by by eapply lookup_lt_Some.
    injection Hj as <-. done.
  - rewrite list_lookup_insert_ne in Hj by done.
    by specialize (Huniq j tj Hj Hid).
Qed.

(** An instance: once [task-2] is processing, the poll returns the other
    pending task only. *)
Lemma transitioned_task_not_polled_witness :
  let w1 := (TaskQueue.update_task_status "task-2" PROCESSING None None
               sample_env done_world).2 in
  (TaskQueue.get_pending_tasks 5 sample_env w1).1 = Ok [(2%nat, second_task)] ∧
  Forall (λ task : nat * Task.t, Task.task_id task.2 ≠ "task-2")
    [(2%nat, second_task)].
Proof.
  intros w1. split; [reflexivity|].
  apply (transitioned_task_not_polled sample_env done_world "task-2"
           PROCESSING None None w1 5 [(2%nat, second_task)]
           (TaskQueue.get_pending_tasks 5 sample_env w1).2).
  - discriminate.
  - reflexivity.
  - reflexivity.
Defined.

(** C4, as stated, fails: two callers that poll before either has
    transitioned anything are both given the same two tasks. *)
Lemma two_callers_get_the_same_tasks :
  let first := TaskQueue.get_pending_tasks 5 sample_env done_world in
  let second := TaskQueue.get_pending_tasks 5 sample_env first.2 in
  first.1 = Ok [(1%nat, retry_task); (2%nat, second_task)] ∧
  second.1 = Ok [(1%nat, retry_task); (2%nat, second_task)].
Proof. split; reflexivity. Qed.

(** An instance: the pending retry task of [done_world]. *)
Lemma process_task_without_handler_witness :
  ∃ w2,
    process_task (1%nat, retry_task) sample_env done_world = (Ok tt, w2) ∧
    Task.status <$> tasks w2 !! 1%nat = Some COMPLETED ∧
    http_posts w2 = 0%nat.
Proof.
  destruct (process_task_without_handler sample_env done_world 1 retry_task)
    as (w1 & w2 & _ & _ & _ & Hrun & Htasks & _ & _ & _ & _ & _ & _ & Hposts & _).
  - split; [reflexivity|]. intros k y Hk Hy.
    destruct k as [|[|[|k]]]; simpl in Hk; [| done | |done];
      injection Hk as <-; discriminate Hy.
  - discriminate.
  - discriminate.
  - exists w2. split; [exact Hrun|]. rewrite Htasks, Hposts.
    split; reflexivity.
Defined.

(** ** EventStore *)

Lemma save_event_run aggregate_id event_type payload metadata env w :
  EventStore.save_event aggregate_id event_type payload metadata env w =
  let e := Event.mk (next_id (events w)) (env_uuid4 env (uuids_drawn w))
             aggregate_id event_type payload 1
             (env_utcnow env (clock_reads w)) (default ∅ metadata) in
  (Ok e,
   set_events (events w ++ [e])
     (set_clock_reads (S (clock_reads w))
        (set_uuids_drawn (S (uuids_drawn w)) w))).
Proof. reflexivity. Qed.

Lemma get_events_by_aggregate_run aggregate_id env w :
  EventStore.get_events_by_aggregate aggregate_id env w =
  (Ok (order_by Event.created_at
         (filter (λ e, Event.aggregate_id e = aggregate_id) (events w))), w).
Proof.
  unfold EventStore.get_events_by_aggregate. cbv [mbind M_bind get_world mret M_ret].
  by rewrite select_where_snd.
Qed.

Lemma filter_sorted {A} (key : A → Z) (P : A → Prop) `{!∀ x, Decision (P x)}
    (l : list A) :
  StronglySorted (key_le key) l → StronglySorted (key_le key) (filter P l).
Proof.
  induction 1 as [|x l Hl IH Hx]; [constructor|].
  rewrite filter_cons. destruct (decide (P x)); [|done].
  constructor; [done|]. rewrite Forall_forall in Hx |- *.
  intros y [_ Hy]%list_elem_of_filter. by apply Hx.
Qed.

Lemma filter_none {A} (P : A → Prop) `{!∀ x, Decision (P x)} (l : list A) :
  Forall (λ x, ¬ P x) l → filter P l = [].
Proof.
  induction 1 as [|x l Hx _ IH]; [done|].
  by rewrite filter_cons, decide_False.
Qed.

(** A run of appends adds its events at the end of the log, stamped with
    successive clock readings. *)
Lemma save_events_run env reqs : ∀ w,
  (∀ i j, (i ≤ j)%nat → env_utcnow env i ≤ env_utcnow env j) →
  ∃ appended w',
    save_events reqs env w = (Ok appended, w') ∧
    events w' = events w ++ appended ∧
    event_content <$> appended = request_content <$> reqs ∧
    Forall (λ e, env_utcnow env (clock_reads w) ≤ Event.created_at e)
      appended ∧
    StronglySorted (key_le Event.created_at) appended.
Proof.
  induction reqs as [|r reqs IH]; intros w Hclock.
  - exists [], w. simpl. split_and!; [done|by rewrite app_nil_r|done|..];
      constructor.
  - pose proof (save_event_run (req_aggregate_id r) (req_event_type r)
                  (req_payload r) (req_metadata r) env w) as Hone.
    cbv zeta in Hone.
    set (e := Event.mk _ _ _ _ _ _ _ _) in Hone.
    set (w1 := set_events _ _) in Hone.
    destruct (IH w1 Hclock) as (rest & w' & Hrest & Hev & Hcontent & Hafter & Hs).
    exists (e :: rest), w'. split_and!.
    + simpl. rewrite (run_bind_ok _ _ _ _ _ _ Hone).
      by rewrite (run_bind_ok _ _ _ _ _ _ Hrest).
    + rewrite Hev. simpl. by rewrite <- app_assoc.
    + by rewrite !fmap_cons, Hcontent.
    + constructor; [done|]. eapply Forall_impl; [exact Hafter|].
      intros e' He'. simpl in He'.
      specialize (Hclock (clock_reads w) (S (clock_reads w))). lia.
    + constructor; [done|]. eapply Forall_impl; [exact Hafter|].
      intros e' He'. unfold key_le. simpl in *.
      specialize (Hclock (clock_reads w) (S (clock_reads w))). lia.
Qed.



(** ** CampaignService *)

Lemma increment_lead_count_new campaign_id env w :
  select_where (has_campaign_id campaign_id) (campaign_stats w) = [] →
  CampaignService.increment_lead_count campaign_id env w =
  let c := clock_reads w in
  let s := CampaignStat.mk (next_id (campaign_stats w)) campaign_id 1 0
             0%float (Some (env_utcnow env c)) None
             (env_utcnow env (S c)) (env_utcnow env (S (S c))) in
  (Ok s, set_campaign_stats (campaign_stats w ++ [s])
           (set_clock_reads (S (S (S c))) w)).
Proof.
  intros Hsel. unfold CampaignService.increment_lead_count,
    CampaignService.get_stat.
  cbv [mbind M_bind get_world]. by rewrite Hsel.
Qed.

Lemma increment_lead_count_existing campaign_id env w pos s :
  select_where (has_campaign_id campaign_id) (campaign_stats w) = [(pos, s)] →
  CampaignService.increment_lead_count campaign_id env w =
  let c := clock_reads w in
  let s' := CampaignStat.with_updated_at (env_utcnow env (S c))
              (CampaignStat.with_last_lead_at (Some (env_utcnow env c))
                 (CampaignStat.with_total_leads
                    (CampaignStat.total_leads s + 1) s)) in
  (Ok s', set_campaign_stats (<[pos := s']> (campaign_stats w))
            (set_clock_reads (S (S c)) w)).
Proof.
  intros Hsel. unfold CampaignService.increment_lead_count,
    CampaignService.get_stat.
  cbv [mbind M_bind get_world]. by rewrite Hsel.
Qed.

Lemma increment_payment_count_new campaign_id amount env w :
  select_where (has_campaign_id campaign_id) (campaign_stats w) = [] →
  CampaignService.increment_payment_count campaign_id amount env w =
  let c := clock_reads w in
  let s := CampaignStat.mk (next_id (campaign_stats w)) campaign_id 0 1
             amount None (Some (env_utcnow env c))
             (env_utcnow env (S c)) (env_utcnow env (S (S c))) in
  (Ok s, set_campaign_stats (campaign_stats w ++ [s])
           (set_clock_reads (S (S (S c))) w)).
Proof.
  intros Hsel. unfold CampaignService.increment_payment_count,
    CampaignService.get_stat.
  cbv [mbind M_bind get_world]. by rewrite Hsel.
Qed.

Lemma increment_payment_count_existing campaign_id amount env w pos s :
  select_where (has_campaign_id campaign_id) (campaign_stats w) = [(pos, s)] →
  CampaignService.increment_payment_count campaign_id amount env w =
  let c := clock_reads w in
  let s' := CampaignStat.with_updated_at (env_utcnow env (S c))
              (CampaignStat.with_last_payment_at (Some (env_utcnow env c))
                 (CampaignStat.with_total_revenue
                    (CampaignStat.total_revenue s + amount)%float
                    (CampaignStat.with_total_payments
                       (CampaignStat.total_payments s + 1) s))) in
  (Ok s', set_campaign_stats (<[pos := s']> (campaign_stats w))
            (set_clock_reads (S (S c)) w)).
Proof.
  intros Hsel. unfold CampaignService.increment_payment_count,
    CampaignService.get_stat.
  cbv [mbind M_bind get_world]. by rewrite Hsel.
Qed.

(** After a row for an unseen campaign is appended, it is the campaign's
    only row. *)
Lemma select_appended_stat campaign_id (table : list CampaignStat.t) s :
  Forall (λ s, CampaignStat.campaign_id s ≠ campaign_id) table →
  CampaignStat.campaign_id s = campaign_id →
  select_where (has_campaign_id campaign_id) (table ++ [s])
  = [(length table, s)].
Proof.
  intros Hnone Hs. apply select_where_unique; [|done|].
  - by rewrite lookup_app_r, Nat.sub_diag.
  - intros k y Hk Hy.
    destruct (decide (k < length table)%nat) as [Hlt|Hge].
    + rewrite lookup_app_l in Hk by done.
      rewrite Forall_forall in Hnone.
      destruct (Hnone y); [|done]. by eapply list_elem_of_lookup_2.
    + apply lookup_lt_Some in Hk. rewrite length_app in Hk. simpl in Hk. lia.
Qed.

Lemma select_unseen_stat campaign_id (table : list CampaignStat.t) :
  Forall (λ s, CampaignStat.campaign_id s ≠ campaign_id) table →
  select_where (has_campaign_id campaign_id) table = [].
Proof.
  intros Hnone. apply select_from_none. intros k s Hk.
  rewrite Forall_forall in Hnone. apply Hnone.
  by eapply list_elem_of_lookup_2.
Qed.

(** Rewriting the only row of a campaign leaves it the only row. *)
Lemma stats_of_rewritten campaign_id (table : list CampaignStat.t) s s' w :
  Forall (λ s, CampaignStat.campaign_id s ≠ campaign_id) table →
  CampaignStat.campaign_id s' = campaign_id →
  campaign_stats w = <[length table := s']> (table ++ [s]) →
  stats_of campaign_id w = [s'] ∧
  length (campaign_stats w) = S (length table).
Proof.
  unfold stats_of. intros Hnone Hs' ->.
  replace (<[length table := s']> (table ++ [s])) with (table ++ [s']).
  - rewrite filter_app, (filter_none _ table) by done. split.
    + simpl. by rewrite filter_cons, decide_True.
    + rewrite length_app. simpl. lia.
  - rewrite insert_app_r_alt, Nat.sub_diag by done. done.
Qed.

(** C8.  On a campaign with no rollup row, [increment_lead_count] creates
    one row with [total_leads = 1], and a second call makes it 2 in the same
    row: the campaign still has one row and the table has grown by one.
    On such a campaign [increment_payment_count] with 100.0 gives
    [total_payments = 1], [total_revenue = 100.0], and a further call with
    50.0 gives 2 and 150.0, again in the one row. *)
Theorem campaign_upserts env w campaign_id :
  Forall (λ s, CampaignStat.campaign_id s ≠ campaign_id) (campaign_stats w) →
  (∃ s1 w1 s2 w2,
     CampaignService.increment_lead_count campaign_id env w = (Ok s1, w1) ∧
     CampaignStat.total_leads s1 = 1 ∧
     stats_of campaign_id w1 = [s1] ∧
     CampaignService.increment_lead_count campaign_id env w1 = (Ok s2, w2) ∧
     CampaignStat.total_leads s2 = 2 ∧
     stats_of campaign_id w2 = [s2] ∧
     length (campaign_stats w2) = S (length (campaign_stats w))) ∧
  (∃ s1 w1 s2 w2,
     CampaignService.increment_payment_count campaign_id 100 env w
       = (Ok s1, w1) ∧
     CampaignStat.total_payments s1 = 1 ∧
     CampaignStat.total_revenue s1 = 100%float ∧
     stats_of campaign_id w1 = [s1] ∧
     CampaignService.increment_payment_count campaign_id 50 env w1
       = (Ok s2, w2) ∧
     CampaignStat.total_payments s2 = 2 ∧
     CampaignStat.total_revenue s2 = 150%float ∧
     stats_of campaign_id w2 = [s2] ∧
     length (campaign_stats w2) = S (length (campaign_stats w))).
Proof.
  intros Hnone.
  pose proof (select_unseen_stat campaign_id _ Hnone) as Hsel. split.
  - pose proof (increment_lead_count_new campaign_id env w Hsel) as Hrun1.
    cbv zeta in Hrun1.
    set (s1 := CampaignStat.mk _ _ _ _ _ _ _ _ _) in Hrun1.
    set (w1 := set_campaign_stats _ _) in Hrun1.
    assert (select_where (has_campaign_id campaign_id) (campaign_stats w1)
            = [(length (campaign_stats w), s1)]) as Hsel1
      by by apply select_appended_stat.
    pose proof (increment_lead_count_existing campaign_id env w1 _ _ Hsel1)
      as Hrun2.
    cbv zeta in Hrun2.
    set (s2 := CampaignStat.with_updated_at _ _) in Hrun2.
    set (w2 := set_campaign_stats _ _) in Hrun2.
    exists s1, w1, s2, w2. split_and!; [done|done| |done|done|..].
    + unfold stats_of. simpl.
      rewrite filter_app, (filter_none _ (campaign_stats w)) by done.
      simpl. by rewrite filter_cons, decide_True.
    + by apply (stats_of_rewritten campaign_id (campaign_stats w) s1 s2 w2).
    + by apply (stats_of_rewritten campaign_id (campaign_stats w) s1 s2 w2).
  - pose proof (increment_payment_count_new campaign_id 100 env w Hsel)
      as Hrun1.
    cbv zeta in Hrun1.
    set (s1 := CampaignStat.mk _ _ _ _ _ _ _ _ _) in Hrun1.
    set (w1 := set_campaign_stats _ _) in Hrun1.
    assert (select_where (has_campaign_id campaign_id) (campaign_stats w1)
            = [(length (campaign_stats w), s1)]) as Hsel1
      by by apply select_appended_stat.
    pose proof (increment_payment_count_existing campaign_id 50 env w1 _ _
                  Hsel1) as Hrun2.
    cbv zeta in Hrun2.
    set (s2 := CampaignStat.with_updated_at _ _) in Hrun2.
    set (w2 := set_campaign_stats _ _) in Hrun2.
    exists s1, w1, s2, w2. split_and!; [done|done|done| |done|done|done|..].
    + unfold stats_of. simpl.
      rewrite filter_app, (filter_none _ (campaign_stats w)) by done.
      simpl. by rewrite filter_cons, decide_True.
    + by apply (stats_of_rewritten campaign_id (campaign_stats w) s1 s2 w2).
    + by apply (stats_of_rewritten campaign_id (campaign_stats w) s1 s2 w2).
Qed.

(** An instance: two increments of each kind on the empty world. *)
Lemma campaign_upserts_witness :
  (∃ s w',
     (CampaignService.increment_lead_count "camp1";;
      CampaignService.increment_lead_count "camp1") sample_env empty_world
     = (Ok s, w') ∧
     CampaignStat.total_leads s = 2 ∧ campaign_stats w' = [s]) ∧
  (∃ s w',
     (CampaignService.increment_payment_count "camp1" 100;;
      CampaignService.increment_payment_count "camp1" 50) sample_env empty_world
     = (Ok s, w') ∧
     CampaignStat.total_payments s = 2 ∧
     CampaignStat.total_revenue s = 150%float ∧ campaign_stats w' = [s]).
Proof.
  destruct (campaign_upserts sample_env empty_world "camp1")
    as [(l1 & w1 & l2 & w2 & Hl1 & _ & _ & Hl2 & Hleads & Hrows & _)
        (p1 & v1 & p2 & v2 & Hp1 & _ & _ & _ & Hp2 & Hpay & Hrev & Hprows & _)].
  - constructor.
  - split.
    + exists l2, w2. rewrite (run_bind_ok _ _ _ _ _ _ Hl1).
      split; [exact Hl2|]. split; [exact Hleads|].
      vm_compute in Hl1. injection Hl1 as <- <-.
      vm_compute in Hl2. injection Hl2 as <- <-. reflexivity.
    + exists p2, v2. rewrite (run_bind_ok _ _ _ _ _ _ Hp1).
      split; [exact Hp2|]. split; [exact Hpay|]. split; [exact Hrev|].
      vm_compute in Hp1. injection Hp1 as <- <-.
      vm_compute in Hp2. injection Hp2 as <- <-. reflexivity.
Defined.

(** ** LeadService *)

Lemma update_lead_status_missing lead_id status crm_id payment_data env w :
  select_where (has_lead_id lead_id) (leads w) = [] →
  LeadService.update_lead_status lead_id status crm_id payment_data env w
  = (Ok None, w).
Proof.
  intros Hsel. unfold LeadService.update_lead_status, LeadService.get_lead.
  cbv [mbind M_bind get_world]. by rewrite Hsel.
Qed.

Lemma update_lead_status_found lead_id status crm_id payment_data env w
    pos lead :
  select_where (has_lead_id lead_id) (leads w) = [(pos, lead)] →
  LeadService.update_lead_status lead_id status crm_id payment_data env w =
  let c := clock_reads w in
  let lead1 := Lead.with_updated_at (env_utcnow env c)
                 (Lead.with_status status lead) in
  let lead2 := if LeadService.nonempty crm_id
               then Lead.with_crm_id crm_id lead1 else lead1 in
  match LeadService.payment_applies payment_data status with
  | Some d =>
      let lead3 := Lead.with_payment_amount (dict_get d "amount") lead2 in
      if truthy (dict_get d "payment_date") then
        let lead4 := Lead.with_payment_date (dict_get d "payment_date") lead3 in
        (Ok (Some lead4),
         set_leads (<[pos := lead4]> (leads w)) (set_clock_reads (S c) w))
      else
        let lead4 := Lead.with_payment_date (PTime (env_utcnow env (S c)))
                       lead3 in
        (Ok (Some lead4),
         set_leads (<[pos := lead4]> (leads w)) (set_clock_reads (S (S c)) w))
  | None =>
      (Ok (Some lead2),
       set_leads (<[pos := lead2]> (leads w)) (set_clock_reads (S c) w))
  end.
Proof.
  intros Hsel. unfold LeadService.update_lead_status, LeadService.get_lead.
  cbv [mbind M_bind get_world]. rewrite Hsel. cbv zeta.
  destruct (LeadService.payment_applies payment_data status) as [d|];
    [destruct (truthy (dict_get d "payment_date"))|];
    by destruct (LeadService.nonempty crm_id).
Qed.

Lemma payment_applies_paid d :
  d ≠ ∅ → LeadService.payment_applies (Some d) "paid" = Some d.
Proof.
  intros Hd. unfold LeadService.payment_applies. simpl.
  apply map_size_non_empty_iff in Hd.
  by rewrite (proj2 (Nat.eqb_neq _ _) Hd).
Qed.

Lemma payment_applies_not payment_data status :
  status ≠ "paid" ∨ payment_data = None ∨ payment_data = Some ∅ →
  LeadService.payment_applies payment_data status = None.
Proof.
  unfold LeadService.payment_applies. intros [Hst | [-> | ->]]; [|done..].
  destruct payment_data as [d|]; [|done].
  rewrite (proj2 (String.eqb_neq _ _) Hst). by rewrite andb_false_r.
Qed.

Lemma payment_applies_inv payment_data status d :
  LeadService.payment_applies payment_data status = Some d →
  payment_data = Some d ∧ status = "paid".
Proof.
  unfold LeadService.payment_applies. destruct payment_data as [d'|]; [|done].
  destruct (truthy (PDict d') && String.eqb status "paid") eqn:Hc; [|done].
  apply andb_prop in Hc as [_ Hst%String.eqb_eq]. by intros [= ->].
Qed.



(** An instance: the three tasks of [three_tasks_world]. *)
Lemma get_pending_tasks_ready_in_order_witness :
  (TaskQueue.get_pending_tasks 5 sample_env three_tasks_world).1
  = Ok [(1%nat, overdue_task); (0%nat, due_task)].
Proof.
  pose proof (get_pending_tasks_ready_in_order sample_env three_tasks_world 5)
    as H.
  cbv zeta in H. destruct H as (result & rest & Hrun & _ & _ & _ & Hthree).
  rewrite Hrun. f_equal.
  by apply (Hthree due_task overdue_task future_task).
Defined.

(** * Further properties of the services, the handlers and the worker *)

(** ** TaskQueue *)

Lemma select_unknown_task task_id (table : list Task.t) :
  Forall (λ t, Task.task_id t ≠ task_id) table →
  select_where (has_task_id task_id) table = [].
Proof.
  intros Hnone. apply select_from_none. intros k t Hk.
  rewrite Forall_forall in Hnone. apply Hnone.
  by eapply list_elem_of_lookup_2.
Qed.

(** X1.  [update_task_status] on a [task_id] that no task has raises
    [ValueError("Task <id> not found")] and changes nothing, whatever the
    requested status. *)
Theorem update_task_status_unknown_task env w task_id status error_message
    result :
  Forall (λ t, Task.task_id t ≠ task_id) (tasks w) →
  TaskQueue.update_task_status task_id status error_message result env w
  = (Raise (ValueError ("Task " +:+ task_id +:+ " not found")), w).
Proof.
  intros Hnone. by apply update_task_status_missing, select_unknown_task.
Qed.

(** An instance: no task of [done_world] is called [task-9]. *)
Lemma update_task_status_unknown_task_witness :
  TaskQueue.update_task_status "task-9" COMPLETED None None sample_env
    done_world
  = (Raise (ValueError "Task task-9 not found"), done_world).
Proof.
  apply (update_task_status_unknown_task sample_env done_world "task-9").
  repeat constructor; discriminate.
Defined.

(** X2.  A call of [update_task_status] that returns has rewritten exactly
    one row, the one of that [task_id]: its status is the one requested and
    its attempts one more; its key, type, payload, [max_attempts] and
    [scheduled_at] are kept; [started_at] changes only on entry to
    processing, [completed_at] and [result] only on completion, and
    [error_message] only on failure (an earlier error message survives a
    later completion).  Every other task row and the other three tables are
    as before. *)
Theorem update_task_status_rewrites_one_row env w w' task_id status
    error_message result :
  TaskQueue.update_task_status task_id status error_message result env w
  = (Ok tt, w') →
  ∃ pos t t',
    tasks w !! pos = Some t ∧ Task.task_id t = task_id ∧
    tasks w' = <[pos := t']> (tasks w) ∧
    (∀ k, k ≠ pos → tasks w' !! k = tasks w !! k) ∧
    events w' = events w ∧ leads w' = leads w ∧
    campaign_stats w' = campaign_stats w ∧
    Task.status t' = status ∧
    Task.attempts t' = Task.attempts t + 1 ∧
    (Task.id t', Task.task_id t', Task.task_type t', Task.payload t',
     Task.max_attempts t', Task.scheduled_at t')
    = (Task.id t, Task.task_id t, Task.task_type t, Task.payload t,
       Task.max_attempts t, Task.scheduled_at t) ∧
    (status ≠ PROCESSING → Task.started_at t' = Task.started_at t) ∧
    (status ≠ COMPLETED →
     Task.completed_at t' = Task.completed_at t ∧
     Task.result t' = Task.result t) ∧
    (status ≠ FAILED → Task.error_message t' = Task.error_message t) ∧
    (status = FAILED → Task.error_message t' = error_message) ∧
    (status = COMPLETED → Task.result t' = result).
Proof.
  intros Hrun.
  destruct (update_task_status_cases task_id status error_message result
              env w) as [[e He] | (pos & t & Hsel & Hok)]; [congruence|].
  rewrite Hok in Hrun. injection Hrun as <-.
  destruct (select_where_singleton _ _ _ _ Hsel) as (Hpos & Hid & _).
  exists pos, t, (transitioned status error_message result
                    (env_utcnow env (clock_reads w)) t).
  split_and!; try done; try (by destruct status).
  intros k Hk. simpl. by rewrite list_lookup_insert_ne.
Qed.

(** An instance: [task-2] of [done_world] enters processing. *)
Lemma update_task_status_rewrites_one_row_witness :
  ∃ t',
    tasks (TaskQueue.update_task_status "task-2" PROCESSING None None
             sample_env done_world).2
    = [done_task; t'; second_task] ∧
    Task.status t' = PROCESSING ∧ Task.attempts t' = 1.
Proof.
  destruct (update_task_status_rewrites_one_row sample_env done_world
              (TaskQueue.update_task_status "task-2" PROCESSING None None
                 sample_env done_world).2
              "task-2" PROCESSING None None eq_refl)
    as (pos & t & t' & Hpos & Hid & Htasks & _ & _ & _ & _ & Hst & Hatt & _).
  destruct pos as [|[|[|pos]]]; simpl in Hpos; try done;
    injection Hpos as <-; try discriminate Hid.
  exists t'. split; [exact Htasks|]. split; [exact Hst | exact Hatt].
Defined.

Lemma get_task_by_id_found task_id env w pos t :
  select_where (has_task_id task_id) (tasks w) = [(pos, t)] →
  TaskQueue.get_task_by_id task_id env w = (Ok (Some (pos, t)), w).
Proof.
  intros Hsel. unfold TaskQueue.get_task_by_id.
  cbv [mbind M_bind get_world]. by rewrite Hsel.
Qed.



(** ** The CRM handler *)

Lemma lead_stored_once_select w pos lead :
  lead_stored_once w pos lead →
  select_where (has_lead_id (Lead.lead_id lead)) (leads w) = [(pos, lead)].
Proof. intros [Hpos Huniq]. by apply select_where_unique. Qed.

Lemma select_unknown_lead lead_id (table : list Lead.t) :
  Forall (λ l, Lead.lead_id l ≠ lead_id) table →
  select_where (has_lead_id lead_id) table = [].
Proof.
  intros Hnone. apply select_from_none. intros k l Hk.
  rewrite Forall_forall in Hnone. apply Hnone.
  by eapply list_elem_of_lookup_2.
Qed.

Lemma get_lead_found lead_id env w pos lead :
  select_where (has_lead_id lead_id) (leads w) = [(pos, lead)] →
  LeadService.get_lead lead_id env w = (Ok (Some (pos, lead)), w).
Proof.
  intros Hsel. unfold LeadService.get_lead.
  cbv [mbind M_bind get_world]. by rewrite Hsel.
Qed.

Lemma get_lead_missing lead_id env w :
  select_where (has_lead_id lead_id) (leads w) = [] →
  LeadService.get_lead lead_id env w = (Ok None, w).
Proof.
  intros Hsel. unfold LeadService.get_lead.
  cbv [mbind M_bind get_world]. by rewrite Hsel.
Qed.

(** The run of [process_crm_task] on a stored lead when the CRM accepts:
    one request, the lead rewritten, one event appended. *)
Lemma process_crm_task_accepted env w crm_config pos lead :
  lead_stored_once w pos lead →
  is_success (env_http_post env (http_posts w)) = true →
  let response := env_http_post env (http_posts w) in
  let crm_id := dict_get_str crm_config "crm_id" in
  let lead1 := Lead.with_updated_at (env_utcnow env (clock_reads w))
                 (Lead.with_status "sent_to_crm" lead) in
  let lead' := if LeadService.nonempty crm_id
               then Lead.with_crm_id crm_id lead1 else lead1 in
  let event :=
    Event.mk (next_id (events w)) (env_uuid4 env (uuids_drawn w))
      (Lead.lead_id lead) LEAD_SENT_TO_CRM
      {[ "crm_response" := PDict response;
         "crm_config" := PDict crm_config ]}
      1 (env_utcnow env (S (clock_reads w))) ∅ in
  process_crm_task (Some (Lead.lead_id lead)) crm_config env w
  = (Ok {[ "success" := PBool true; "result" := PDict response ]},
     set_events (events w ++ [event])
       (set_clock_reads (S (S (clock_reads w)))
          (set_uuids_drawn (S (uuids_drawn w))
             (set_leads (<[pos := lead']> (leads w))
                (set_clock_reads (S (clock_reads w))
                   (set_http_posts (S (http_posts w)) w)))))).
Proof.
  intros Hstored Hsucc. cbv zeta.
  pose proof (lead_stored_once_select _ _ _ Hstored) as Hsel.
  unfold process_crm_task, try_except, send_lead, http_post.
  rewrite (run_bind_ok _ _ _ _ _ _ (get_lead_found _ env w _ _ Hsel)).
  cbv [mbind M_bind ask_env get_world update_world mret M_ret]. cbv beta.
  simpl http_posts. rewrite Hsucc.
  match goal with
  | |- context [LeadService.update_lead_status ?i ?s ?c ?p env ?w0] =>
      pose proof (update_lead_status_found i s c p env w0 pos lead Hsel) as Hupd
  end.
  cbv zeta in Hupd. simpl in Hupd. rewrite Hupd. clear Hupd.
  by rewrite save_event_run.
Qed.





(** X6.  [process_crm_task] for a payload without a [lead_id], or with the
    id of no stored lead, raises [ValueError("Lead not found: ...")] at
    once: nothing is posted and nothing is written. *)
Theorem process_crm_task_unknown_lead env w lead_id crm_config :
  (∀ s, lead_id = Some s → Forall (λ l, Lead.lead_id l ≠ s) (leads w)) →
  process_crm_task lead_id crm_config env w
  = (Raise (ValueError ("Lead not found: " +:+ default "None" lead_id)), w).
Proof.
  intros Hnone. unfold process_crm_task, try_except.
  destruct lead_id as [s|]; [|done].
  rewrite (run_bind_ok _ _ _ _ _ _
             (get_lead_missing s env w
                (select_unknown_lead _ _ (Hnone s eq_refl)))).
  done.
Qed.

(** An instance: a lead id that [lead_world] does not hold. *)
Lemma process_crm_task_unknown_lead_witness :
  process_crm_task (Some "lead_ffffffff") crm_config accepting_env lead_world
  = (Raise (ValueError "Lead not found: lead_ffffffff"), lead_world).
Proof.
  apply (process_crm_task_unknown_lead accepting_env lead_world
           (Some "lead_ffffffff") crm_config).
  intros s [= <-]. repeat constructor. discriminate.
Defined.

(** ** The conversion handler *)



(** X8.  [process_yandex_direct_task] raises [ValueError("Lead or
    campaign_id not found: ...")] when the payload has no [lead_id], when no
    lead has it, and when the lead has no campaign (none or the empty
    string); it has then read no configuration, posted nothing and written
    nothing. *)
Theorem process_yandex_direct_task_no_campaign env w lead_id payment_amount :
  lead_id = None ∨
  (∃ s, lead_id = Some s ∧ Forall (λ l, Lead.lead_id l ≠ s) (leads w)) ∨
  (∃ s pos lead,
     lead_id = Some s ∧ lead_stored_once w pos lead ∧ Lead.lead_id lead = s ∧
     (Lead.campaign_id lead = None ∨ Lead.campaign_id lead = Some "")) →
  process_yandex_direct_task lead_id payment_amount env w
  = (Raise (ValueError ("Lead or campaign_id not found: " +:+
                        default "None" lead_id)), w).
Proof.
  unfold process_yandex_direct_task, try_except.
  intros [-> | [(s & -> & Hnone) | (s & pos & lead & -> & Hstored & <- & Hcamp)]].
  - done.
  - by rewrite (run_bind_ok _ _ _ _ _ _
                  (get_lead_missing s env w (select_unknown_lead _ _ Hnone))).
  - rewrite (run_bind_ok _ _ _ _ _ _
               (get_lead_found _ env w _ _
                  (lead_stored_once_select _ _ _ Hstored))).
    by destruct Hcamp as [-> | ->].
Qed.

(** An instance: a lead stored without a campaign. *)
Lemma process_yandex_direct_task_no_campaign_witness :
  process_yandex_direct_task (Some "lead_00000000") (PInt 0) accepting_env
    orphan_world
  = (Raise (ValueError "Lead or campaign_id not found: lead_00000000"),
     orphan_world).
Proof.
  apply (process_yandex_direct_task_no_campaign accepting_env orphan_world
           (Some "lead_00000000") (PInt 0)).
  right. right. exists "lead_00000000", 0%nat, orphan_lead.
  split_and!; [reflexivity| |reflexivity|by left].
  split; [reflexivity|]. intros k y Hk _.
  destruct k as [|k]; [done|]. by destruct k.
Defined.

(** ** The worker on one task, whatever its handler does *)

(** The world in which the worker calls the handler of a stored task. *)
Lemma process_task_run env w pos t :
  stored_once w pos t →
  let processing :=
    transitioned PROCESSING None None (env_utcnow env (clock_reads w)) t in
  let w1 := set_tasks (<[pos := processing]> (tasks w))
              (after_transition_clock PROCESSING w) in
  let settle status error_message result wh :=
    (Ok tt,
     set_tasks
       (<[pos := transitioned status error_message result
                   (env_utcnow env (clock_reads wh)) processing]> (tasks w))
       (after_transition_clock status wh)) in
  tasks (handler_of t env w1).2 = tasks w1 ∧
  process_task (pos, t) env w =
  match handler_of t env w1 with
  | (Ok result, wh) => settle COMPLETED None result wh
  | (Raise e, wh) =>
      if Task.attempts t + 2 >=? Task.max_attempts t
      then settle FAILED (Some (str_of_exception e)) None wh
      else settle PENDING None None wh
  end.
Proof.
  intros Hstored processing w1 settle.
  pose proof (update_task_status_stored_once PROCESSING None None env _ _ _
                Hstored) as Hrun1.
  fold processing in Hrun1. fold w1 in Hrun1.
  pose proof (stored_once_transitioned _ _ _ PROCESSING None None
                (env_utcnow env (clock_reads w)) Hstored) as Hstored1.
  fold processing in Hstored1. fold w1 in Hstored1.
  pose proof (handler_of_keeps_tasks (λ l, l = tasks w1) t env w1 eq_refl)
    as Htasks.
  unfold on_tasks in Htasks. split; [exact Htasks|].
  destruct (handler_of t env w1) as [[result|e] wh] eqn:Hhandler;
    simpl in Htasks.
  - assert (stored_once wh pos processing) as Hstoredh.
    { unfold stored_once in *. by rewrite Htasks. }
    unfold process_task. erewrite run_try_ok; [reflexivity|]. simpl.
    rewrite (run_bind_ok _ _ _ _ _ _ Hrun1).
    change (Task.task_id t) with (Task.task_id processing).
    erewrite run_bind_ok; [|exact Hhandler].
    rewrite (update_task_status_stored_once _ _ _ env _ _ _ Hstoredh).
    unfold settle. rewrite Htasks. simpl.
    by rewrite list_insert_insert_eq.
  - destruct (process_task_handler_raises env w pos t e wh Hstored Hhandler)
      as (w' & t' & Hrun & _).
    assert (stored_once wh pos processing) as Hstoredh.
    { unfold stored_once in *. by rewrite Htasks. }
    assert (process_task (pos, t) env w =
            (attempts ← current_attempts (pos, t);
             if attempts >=? Task.max_attempts t - 1 then
               TaskQueue.update_task_status (Task.task_id t) FAILED
                 (Some (str_of_exception e)) None
             else
               TaskQueue.update_task_status (Task.task_id t) PENDING None None)
              env wh) as ->.
    { unfold process_task.
      erewrite run_try_raise; [reflexivity|]. simpl.
      rewrite (run_bind_ok _ _ _ _ _ _ Hrun1).
      apply run_bind_raise. exact Hhandler. }
    assert (current_attempts (pos, t) env wh = (Ok (Task.attempts t + 1), wh))
      as Hcur.
    { unfold current_attempts. cbv [mbind M_bind get_world mret M_ret]. simpl.
      by rewrite (proj1 Hstoredh). }
    rewrite (run_bind_ok _ _ _ _ _ _ Hcur).
    replace (Task.attempts t + 1 >=? Task.max_attempts t - 1)
      with (Task.attempts t + 2 >=? Task.max_attempts t)
      by (rewrite !Z.geb_leb; apply eq_iff_eq_true;
          rewrite !Z.leb_le; lia).
    change (Task.task_id t) with (Task.task_id processing).
    destruct (Task.attempts t + 2 >=? Task.max_attempts t);
      rewrite (update_task_status_stored_once _ _ _ env _ _ _ Hstoredh);
      unfold settle; rewrite Htasks; simpl;
      by rewrite list_insert_insert_eq.
Qed.

Lemma attempts_transitioned status error_message result now t :
  Task.attempts (transitioned status error_message result now t)
  = Task.attempts t + 1.
Proof. reflexivity. Qed.

(** X9.  The worker never leaves a stored task in processing: whatever the
    handler does, [process_task] returns, and the task's row (and no other
    task row) is rewritten with two attempts more, [started_at] set, and a
    status that is completed, failed or pending.  It is failed only when
    [attempts + 2 >= max_attempts] and pending only when
    [attempts + 2 < max_attempts], for the attempts it had before; key,
    type, payload, [max_attempts] and [scheduled_at] are kept, so a task
    sent back to pending is due again at once, with no delay. *)
Theorem process_task_settles env w pos t :
  stored_once w pos t →
  ∃ w' t',
    process_task (pos, t) env w = (Ok tt, w') ∧
    tasks w' = <[pos := t']> (tasks w) ∧
    Task.status t' ≠ PROCESSING ∧
    Task.attempts t' = Task.attempts t + 2 ∧
    Task.started_at t' = Some (env_utcnow env (clock_reads w)) ∧
    (Task.id t', Task.task_id t', Task.task_type t', Task.payload t',
     Task.max_attempts t', Task.scheduled_at t')
    = (Task.id t, Task.task_id t, Task.task_type t, Task.payload t,
       Task.max_attempts t, Task.scheduled_at t) ∧
    (Task.status t' = FAILED → Task.max_attempts t ≤ Task.attempts t + 2) ∧
    (Task.status t' = PENDING → Task.attempts t + 2 < Task.max_attempts t).
Proof.
  intros Hstored.
  destruct (process_task_run env w pos t Hstored) as [_ Hrun].
  cbv zeta in Hrun.
  destruct (handler_of t env _) as [[result|e] wh].
  - eexists _, _. split; [exact Hrun|]. simpl.
    split_and!; try done. rewrite !attempts_transitioned. lia.
  - destruct (Task.attempts t + 2 >=? Task.max_attempts t) eqn:Hge;
      (eexists _, _; split; [exact Hrun|]); simpl;
      rewrite Z.geb_leb in Hge;
      [apply Z.leb_le in Hge | apply Z.leb_gt in Hge];
      split_and!; try done; rewrite ?attempts_transitioned; simpl; lia.
Qed.

(** An instance: the task of [crm_world], whose CRM request is refused. *)
Lemma process_task_settles_witness :
  ∃ w' t',
    process_task (0%nat, default done_task (first_task crm_world))
      sample_env crm_world = (Ok tt, w') ∧
    tasks w' = [t'] ∧ Task.status t' = PENDING ∧ Task.attempts t' = 2.
Proof.
  destruct (process_task_settles sample_env crm_world 0
              (default done_task (first_task crm_world)))
    as (w' & t' & Hrun & Htasks & Hnp & Hatt & _ & _ & Hfailed & _).
  - split; [reflexivity|]. intros k y Hk _.
    destruct k as [|k]; [done|]. by destruct k.
  - exists w', t'. split; [exact Hrun|]. split; [exact Htasks|].
    split; [|exact Hatt].
    destruct (Task.status t') eqn:Hst; [done|done| |].
    + assert (default done_task (first_task crm_world)
              = default done_task (first_task crm_world)) as _ by done.
      vm_compute in Hrun. injection Hrun as <-.
      vm_compute in Htasks. injection Htasks as <-. discriminate Hst.
    + specialize (Hfailed eq_refl). vm_compute in Hfailed. by destruct Hfailed.
Defined.

Lemma run_fmap_ok {A B} (g : A → B) (m : M A) env w a w' :
  m env w = (Ok a, w') → (g <$> m) env w = (Ok (g a), w').
Proof. intros Hm. unfold fmap, M_fmap. by rewrite (run_bind_ok _ _ _ _ _ _ Hm). Qed.



(** ** What a turn of the worker keeps *)

Lemma worker_pass_returns env w : (worker_pass env w).1 = Ok tt.
Proof.
  unfold worker_pass, try_except.
  match goal with
  | |- context [match ?body env w with _ => _ end] =>
      by destruct (body env w) as [[[]|e] w']
  end.
Qed.

Lemma background_task_processor_returns turns : ∀ env w,
  (background_task_processor turns env w).1 = Ok tt.
Proof.
  induction turns as [|turns IH]; intros env w; simpl; [done|].
  pose proof (worker_pass_returns env w) as Hpass.
  unfold mbind, M_bind.
  destruct (worker_pass env w) as [[[]|e] w1]; simpl in Hpass; [|done].
  apply IH.
Qed.

Section tasks_grown.
Context (before : list Task.t).

Lemma same_tasks_grown_refl : same_tasks_grown before before.
Proof.
  split; [done|]. intros i t t' Ht Ht'.
  assert (t' = t) as -> by congruence. split; [done | lia].
Qed.

Lemma same_tasks_grown_transitioned table pos t status error_message
    result now :
  same_tasks_grown before table →
  table !! pos = Some t →
  same_tasks_grown before
    (<[pos := transitioned status error_message result now t]> table).
Proof.
  intros [Hlen Hrows] Hpos. split; [by rewrite length_insert|].
  intros i t0 t' Ht0 Ht'.
  destruct (decide (i = pos)) as [->|Hne].
  - rewrite list_lookup_insert_eq in Ht' by by eapply lookup_lt_Some.
    injection Ht' as <-.
    destruct (Hrows pos t0 t Ht0 Hpos) as [Hkeys Hatt].
    split; [exact Hkeys|]. rewrite attempts_transitioned. lia.
  - rewrite list_lookup_insert_ne in Ht' by done. by eapply Hrows.
Qed.

Lemma update_task_status_grown task_id status error_message result :
  maintains (on_tasks (same_tasks_grown before))
    (TaskQueue.update_task_status task_id status error_message result).
Proof.
  intros env w Hgrown.
  destruct (update_task_status_cases task_id status error_message result
              env w) as [[e ->] | (pos & t & Hsel & ->)]; [done|].
  destruct (select_where_singleton _ _ _ _ Hsel) as (Hpos & _ & _).
  unfold on_tasks. simpl. by apply same_tasks_grown_transitioned.
Qed.

Lemma process_task_grown task :
  maintains (on_tasks (same_tasks_grown before)) (process_task task).
Proof.
  unfold process_task.
  pose proof update_task_status_grown as Hupd.
  pose proof current_attempts_keeps_tasks as Hcur.
  solve_maintains.
Qed.

Lemma get_pending_tasks_keeps_tasks Q limit :
  maintains (on_tasks Q) (TaskQueue.get_pending_tasks limit).
Proof. by intros env w. Qed.

Lemma worker_pass_grown :
  maintains (on_tasks (same_tasks_grown before)) worker_pass.
Proof.
  unfold worker_pass.
  pose proof process_task_grown as Htask.
  pose proof get_pending_tasks_keeps_tasks as Hpoll.
  apply maintains_try; [|intros e; apply sleep_keeps_tasks].
  apply maintains_bind; [apply Hpoll|]. intros batch.
  apply maintains_bind; [|intros _; apply sleep_keeps_tasks].
  apply maintains_for_each. intros task _. apply Htask.
Qed.

Lemma background_task_processor_grown turns :
  maintains (on_tasks (same_tasks_grown before))
    (background_task_processor turns).
Proof.
  induction turns as [|turns IH]; simpl.
  - apply maintains_ret.
  - apply maintains_bind; [apply worker_pass_grown | by intros _].
Qed.

End tasks_grown.

(** X11.  Whatever the environment answers and whatever the tables hold,
    any number of turns of the worker returns normally (every exception is
    caught), and the task table afterwards has the same rows: none is added
    or removed, each keeps its keys, type, payload, [max_attempts] and
    [scheduled_at], and no [attempts] has gone down. *)
Theorem background_task_processor_keeps_tasks turns env w :
  (background_task_processor turns env w).1 = Ok tt ∧
  same_tasks_grown (tasks w)
    (tasks (background_task_processor turns env w).2).
Proof.
  split; [apply background_task_processor_returns|].
  apply (background_task_processor_grown (tasks w) turns env w).
  apply same_tasks_grown_refl.
Qed.

(** X12.  A turn of the worker changes no task row outside the batch it
    polled: the batch has at most five rows, each of them pending and due at
    the clock reading of the poll, and every other row is afterwards as it
    was.  In particular a task scheduled after that reading is not run
    early, and a task that is not pending is not run at all. *)
Theorem worker_pass_changes_its_batch_only env w :
  let now := env_utcnow env (clock_reads w) in
  ∃ batch,
    (TaskQueue.get_pending_tasks 5 env w).1 = Ok batch ∧
    (length batch ≤ 5)%nat ∧
    (∀ pos t, (pos, t) ∈ batch →
       tasks w !! pos = Some t ∧
       Task.status t = PENDING ∧ Task.scheduled_at t ≤ now) ∧
    (∀ pos t, tasks w !! pos = Some t → pos ∉ batch.*1 →
       tasks (worker_pass env w).2 !! pos = Some t) ∧
    (∀ pos t, tasks w !! pos = Some t →
       Task.status t ≠ PENDING ∨ now < Task.scheduled_at t →
       tasks (worker_pass env w).2 !! pos = Some t).
Proof.
  intros now.
  destruct (TaskQueue.get_pending_tasks 5 env w) as [out w0] eqn:Hpoll.
  pose proof Hpoll as Hrun. rewrite get_pending_tasks_run in Hrun.
  destruct out as [batch|e]; [|done]. injection Hrun as Hbatch Hw0.
  assert (∀ pos t, (pos, t) ∈ batch →
            tasks w !! pos = Some t ∧
            Task.status t = PENDING ∧ Task.scheduled_at t ≤ now) as Hready.
  { intros pos t Hin.
    by destruct (elem_of_get_pending_tasks _ _ _ _ _ _ _ Hpoll Hin)
      as [? [? ?]]. }
  assert (∀ pos t, tasks w !! pos = Some t → pos ∉ batch.*1 →
            tasks (worker_pass env w).2 !! pos = Some t) as Houtside.
  { intros pos t Hpos Hout.
    assert (∀ j tj, (j, tj) ∈ batch → j ≠ pos) as Helse.
    { intros j tj Hin ->. apply Hout.
      apply list_elem_of_fmap. by exists (pos, tj). }
    assert (on_tasks (batch_frame batch pos t) w0) as Hframe.
    { subst w0. split; simpl; [done|].
      intros j tj Hin. exists tj. split; [by apply Hready | done]. }
    apply (for_each_batch_frame batch pos t Helse env) in Hframe.
    unfold worker_pass, try_except.
    rewrite (run_bind_ok _ _ _ _ _ _ Hpoll).
    unfold mbind, M_bind.
    destruct (for_each batch process_task env w0) as [[[]|e] w1];
      apply Hframe. }
  exists batch. split; [done|]. split.
  { rewrite <- Hbatch, length_take. lia. }
  split; [exact Hready|]. split; [exact Houtside|].
  intros pos t Hpos Hnot. apply Houtside; [done|].
  intros ((j & tj) & -> & Hin)%list_elem_of_fmap. simpl in *.
  destruct (Hready j tj Hin) as (Hj & Hst & Hdue).
  assert (tj = t) as -> by congruence.
  destruct Hnot; [done | lia].
Qed.

(** ** What the worker keeps of the log and the projections *)

Lemma update_lead_status_ambiguous lead_id status crm_id payment_data env w
    r1 r2 rows :
  select_where (has_lead_id lead_id) (leads w) = r1 :: r2 :: rows →
  LeadService.update_lead_status lead_id status crm_id payment_data env w
  = (Raise MultipleResultsFound, w).
Proof.
  intros Hsel. unfold LeadService.update_lead_status, LeadService.get_lead.
  cbv [mbind M_bind get_world]. by rewrite Hsel.
Qed.

Section log.
Context (before : World).

Lemma log_kept_refl : log_kept before before.
Proof.
  split_and!; try done. intros i l l' Hl Hl'.
  by assert (l' = l) as -> by congruence.
Qed.

Lemma log_kept_same w w' :
  log_kept before w →
  events w' = events w → leads w' = leads w →
  campaign_stats w' = campaign_stats w →
  log_kept before w'.
Proof. unfold log_kept. by intros H -> -> ->. Qed.

Lemma log_kept_event w w' e :
  log_kept before w →
  events w' = events w ++ [e] → leads w' = leads w →
  campaign_stats w' = campaign_stats w →
  log_kept before w'.
Proof.
  unfold log_kept. intros (Hpre & ? & ? & ?) -> -> ->.
  split_and!; try done. by apply prefix_app_r.
Qed.

Lemma utcnow_log : maintains (log_kept before) utcnow.
Proof. intros env w H. exact H. Qed.

Lemma http_post_log : maintains (log_kept before) http_post.
Proof. intros env w H. exact H. Qed.

Lemma load_integrations_log : maintains (log_kept before) load_integrations.
Proof. intros env w H. exact H. Qed.

Lemma sleep_log : maintains (log_kept before) sleep.
Proof. intros env w H. exact H. Qed.

Lemma current_attempts_log task :
  maintains (log_kept before) (current_attempts task).
Proof. intros env w H. exact H. Qed.

Lemma get_pending_tasks_log limit :
  maintains (log_kept before) (TaskQueue.get_pending_tasks limit).
Proof. intros env w H. exact H. Qed.

Lemma get_lead_log lead_id :
  maintains (log_kept before) (LeadService.get_lead lead_id).
Proof. unfold LeadService.get_lead. solve_maintains. Qed.

Lemma update_task_status_log task_id status error_message result :
  maintains (log_kept before)
    (TaskQueue.update_task_status task_id status error_message result).
Proof.
  intros env w H.
  destruct (update_task_status_cases task_id status error_message result
              env w) as [[e ->] | (pos & t & Hsel & ->)]; [done|].
  eapply log_kept_same; [exact H|..]; by destruct status.
Qed.

Lemma save_event_log aggregate_id event_type payload metadata :
  maintains (log_kept before)
    (EventStore.save_event aggregate_id event_type payload metadata).
Proof.
  intros env w H. rewrite save_event_run. cbv zeta.
  by eapply log_kept_event.
Qed.

(** As the worker calls it: with no payment data. *)
Lemma update_lead_status_log lead_id status crm_id :
  maintains (log_kept before)
    (LeadService.update_lead_status lead_id status crm_id None).
Proof.
  intros env w H.
  destruct (select_where (has_lead_id lead_id) (leads w))
    as [|[pos lead] [|r2 rows]] eqn:Hsel.
  - by rewrite update_lead_status_missing.
  - rewrite (update_lead_status_found _ _ _ _ _ _ _ _ Hsel). cbv zeta.
    rewrite payment_applies_not by (right; by left). simpl.
    destruct (select_where_singleton _ _ _ _ Hsel) as (Hpos & _ & _).
    destruct H as (Hpre & Hstats & Hlen & Hrows).
    split_and!; simpl; [done|done|by rewrite length_insert|].
    intros i l l' Hl Hl'.
    destruct (decide (i = pos)) as [->|Hne].
    + rewrite list_lookup_insert_eq in Hl' by by eapply lookup_lt_Some.
      injection Hl' as <-.
      rewrite <- (Hrows pos l lead Hl Hpos).
      by destruct (LeadService.nonempty crm_id).
    + rewrite list_lookup_insert_ne in Hl' by done. by eapply Hrows.
  - by erewrite update_lead_status_ambiguous.
Qed.

Local Hint Resolve utcnow_log http_post_log load_integrations_log sleep_log
  current_attempts_log get_pending_tasks_log get_lead_log
  update_task_status_log save_event_log update_lead_status_log : maintains.

Lemma process_crm_task_log lead_id crm_config :
  maintains (log_kept before) (process_crm_task lead_id crm_config).
Proof. unfold process_crm_task, send_lead. solve_maintains. Qed.

Lemma process_yandex_direct_task_log lead_id payment_amount :
  maintains (log_kept before)
    (process_yandex_direct_task lead_id payment_amount).
Proof. unfold process_yandex_direct_task, send_conversion. solve_maintains. Qed.

Local Hint Resolve process_crm_task_log process_yandex_direct_task_log
  : maintains.

Lemma process_task_log task :
  maintains (log_kept before) (process_task task).
Proof. unfold process_task. solve_maintains. Qed.

Lemma worker_pass_log : maintains (log_kept before) worker_pass.
Proof.
  unfold worker_pass.
  apply maintains_try; [|intros e; apply sleep_log].
  apply maintains_bind; [apply get_pending_tasks_log|]. intros batch.
  apply maintains_bind; [|intros _; apply sleep_log].
  apply maintains_for_each. intros task _. apply process_task_log.
Qed.

Lemma background_task_processor_log turns :
  maintains (log_kept before) (background_task_processor turns).
Proof.
  induction turns as [|turns IH]; simpl.
  - apply maintains_ret.
  - apply maintains_bind; [apply worker_pass_log | by intros _].
Qed.

End log.

(** X13.  The worker treats the event log as append-only and the projections
    with care: after any number of turns the events stored before are still
    the first events of the log, unchanged and in place; no campaign rollup
    has changed; and the leads are the same rows, each with its keys,
    campaign, landing, form data, creation time and payment fields (the
    worker only changes a lead's status, [crm_id] and [updated_at]). *)
Theorem background_task_processor_keeps_log turns env w :
  log_kept w (background_task_processor turns env w).2.
Proof.
  apply (background_task_processor_log w turns env w), log_kept_refl.
Qed.

(** ** EventStore: the whole log *)

Lemma select_everything {A} (table : list A) :
  (select_where (λ _, True) table).*2 = table.
Proof.
  rewrite select_where_snd. induction table as [|x table IH]; [done|].
  by rewrite filter_cons, decide_True, IH.
Qed.

Lemma get_all_events_run limit offset env w :
  EventStore.get_all_events limit offset env w
  = (Ok (take limit
           (drop offset
              (order_by (λ e, - Event.created_at e) (events w)))), w).
Proof.
  unfold EventStore.get_all_events.
  cbv [mbind M_bind get_world mret M_ret]. by rewrite select_everything.
Qed.

Lemma order_by_descending {A} (key : A → Z) (l : list A) :
  StronglySorted (λ a b, key b ≤ key a) (order_by (λ a, - key a) l).
Proof.
  pose proof (order_by_sorted (λ a, - key a) l) as Hs.
  induction Hs as [|x l' Hl IH Hx]; constructor; [done|].
  eapply Forall_impl; [exact Hx|]. unfold key_le. intros; lia.
Qed.

(** X14.  [get_all_events limit offset] reads only, and returns the page of
    the log, newest first, that starts [offset] events from the newest: it
    has [min limit (count - offset)] events (none, and no error, when
    [offset] is beyond the end), all of them stored events in descending
    order of [created_at]; the next page follows it without gap or overlap;
    and a page from offset 0 that is large enough holds every event once. *)
Theorem get_all_events_pages env w limit offset :
  ∃ page,
    EventStore.get_all_events limit offset env w = (Ok page, w) ∧
    length page = (limit `min` (length (events w) - offset))%nat ∧
    StronglySorted
      (λ a b, Event.created_at b ≤ Event.created_at a) page ∧
    (∀ e, e ∈ page → e ∈ events w) ∧
    (∀ more, ∃ next,
       EventStore.get_all_events more (offset + limit) env w = (Ok next, w) ∧
       EventStore.get_all_events (limit + more) offset env w
       = (Ok (page ++ next), w)) ∧
    (offset = 0%nat → (length (events w) ≤ limit)%nat → page ≡ₚ events w).
Proof.
  set (sorted := order_by (λ e, - Event.created_at e) (events w)).
  exists (take limit (drop offset sorted)).
  split; [apply get_all_events_run|].
  split.
  { rewrite length_take, length_drop. unfold sorted.
    by rewrite order_by_length. }
  split.
  { pose proof (order_by_descending Event.created_at (events w)) as Hs.
    fold sorted in Hs.
    rewrite <- (take_drop offset sorted) in Hs.
    apply StronglySorted_app_1_r in Hs.
    rewrite <- (take_drop limit (drop offset sorted)) in Hs.
    by apply StronglySorted_app_1_l in Hs. }
  split.
  { intros e He. apply elem_of_take in He as (i & He & _).
    apply list_elem_of_lookup_2 in He.
    assert (e ∈ sorted) as Hin.
    { rewrite <- (take_drop offset sorted). apply elem_of_app. by right. }
    unfold sorted in Hin. by rewrite order_by_perm in Hin. }
  split.
  { intros more. exists (take more (drop (offset + limit) sorted)).
    split; [apply get_all_events_run|].
    rewrite get_all_events_run. fold sorted. do 2 f_equal.
    rewrite <- (take_take_drop (drop offset sorted) limit more).
    by rewrite drop_drop. }
  intros -> Hall. rewrite drop_0, take_ge.
  - apply order_by_perm.
  - unfold sorted. by rewrite order_by_length.
Qed.

Lemma get_event_count_run env w :
  EventStore.get_event_count env w = (Ok (Z.of_nat (length (events w))), w).
Proof. reflexivity. Qed.


(** ** LeadService.create_lead *)

Lemma create_lead_run form_data landing_id campaign_id env w :
  LeadService.create_lead form_data landing_id campaign_id env w =
  let c := clock_reads w in
  let lead :=
    Lead.mk (next_id (leads w))
      ("lead_" +:+ String.substring 0 8 (env_uuid4 env (uuids_drawn w)))
      (if LeadService.nonempty campaign_id then campaign_id
       else LeadFormData.campaign_id form_data)
      landing_id (LeadFormData.to_dict form_data) "new" None PNone PNone
      (env_utcnow env c) (env_utcnow env (S c)) in
  (Ok lead,
   set_leads (leads w ++ [lead])
     (set_clock_reads (S (S c)) (set_uuids_drawn (S (uuids_drawn w)) w))).
Proof. reflexivity. Qed.

(** X16.  When the identifier drawn is not already a [lead_id],
    [create_lead] appends one lead and [get_lead] on its identifier then
    finds precisely that lead.  The lead is new, has no CRM and no payment,
    carries the form as a dictionary, and its campaign is the one given or,
    when none (or an empty one) is given, the campaign of the form; its
    identifier is [lead_] followed by the first eight digits of the UUID
    drawn.  The leads stored before and the other tables are as they
    were. *)
Theorem create_lead_then_get_lead env w form_data landing_id campaign_id :
  let lead_id :=
    "lead_" +:+ String.substring 0 8 (env_uuid4 env (uuids_drawn w)) in
  Forall (λ l, Lead.lead_id l ≠ lead_id) (leads w) →
  ∃ lead w',
    LeadService.create_lead form_data landing_id campaign_id env w
    = (Ok lead, w') ∧
    leads w' = leads w ++ [lead] ∧
    events w' = events w ∧ tasks w' = tasks w ∧
    campaign_stats w' = campaign_stats w ∧
    LeadService.get_lead (Lead.lead_id lead) env w'
    = (Ok (Some (length (leads w), lead)), w') ∧
    Lead.lead_id lead = lead_id ∧
    Lead.status lead = "new" ∧
    Lead.campaign_id lead
    = (if LeadService.nonempty campaign_id then campaign_id
       else LeadFormData.campaign_id form_data) ∧
    Lead.landing_id lead = landing_id ∧
    Lead.form_data lead = LeadFormData.to_dict form_data ∧
    (Lead.crm_id lead, Lead.payment_amount lead, Lead.payment_date lead)
    = (None, PNone, PNone).
Proof.
  intros lead_id Hfresh. rewrite create_lead_run. cbv zeta.
  set (lead := Lead.mk _ _ _ _ _ _ _ _ _ _ _).
  set (w' := set_leads _ _).
  exists lead, w'. split_and!; try done.
  apply get_lead_found, select_where_unique; [|done|].
  - simpl. by rewrite lookup_app_r, Nat.sub_diag.
  - intros k y Hk Hy. simpl in Hk.
    destruct (decide (k < length (leads w))%nat) as [Hlt|Hge].
    + rewrite lookup_app_l in Hk by done.
      rewrite Forall_forall in Hfresh.
      destruct (Hfresh y); [|done]. by eapply list_elem_of_lookup_2.
    + apply lookup_lt_Some in Hk. rewrite length_app in Hk. simpl in Hk. lia.
Qed.

(** An instance: a form of campaign [camp7] submitted with no campaign of
    its own, beside the lead of [lead_world]. *)
Lemma create_lead_then_get_lead_witness :
  ∃ lead w',
    LeadService.create_lead sample_form "default" None sample_env lead_world
    = (Ok lead, w') ∧
    LeadService.get_lead "lead_uuid-0" sample_env w'
    = (Ok (Some (1%nat, lead)), w') ∧
    Lead.campaign_id lead = Some "camp7".
Proof.
  destruct (create_lead_then_get_lead sample_env lead_world sample_form
              "default" None)
    as (lead & w' & Hrun & _ & _ & _ & _ & Hget & Hid & _ & Hcamp & _).
  - repeat constructor. discriminate.
  - exists lead, w'. rewrite Hid in Hget.
    split; [exact Hrun|]. split; [exact Hget | exact Hcamp].
Defined.

(** ** CampaignService on campaigns already seen, and the leaderboard *)

Lemma get_campaign_stats_run campaign_id env w :
  CampaignService.get_campaign_stats campaign_id env w
  = (Ok (order_by (λ s, - CampaignStat.total_leads s)
           (if LeadService.nonempty campaign_id then
              filter (λ s, Some (CampaignStat.campaign_id s) = campaign_id)
                (campaign_stats w)
            else campaign_stats w)), w).
Proof.
  unfold CampaignService.get_campaign_stats. cbv [mbind M_bind get_world].
  destruct (LeadService.nonempty campaign_id).
  - by rewrite select_where_snd.
  - by rewrite select_everything.
Qed.

Lemma nonempty_Some c : c ≠ "" → LeadService.nonempty (Some c) = true.
Proof.
  intros Hc. simpl. destruct (String.eqb_spec c ""); [done|reflexivity].
Qed.

(** Rewriting a row that [P] rejects by another that [P] rejects changes
    nothing for [P]. *)
Lemma filter_insert_rejected {A} (P : A → Prop) `{!∀ x, Decision (P x)}
    (l : list A) pos x x' :
  l !! pos = Some x → ¬ P x → ¬ P x' →
  filter P (<[pos := x']> l) = filter P l.
Proof.
  revert pos. induction l as [|y l IH]; intros [|pos] Hpos Hx Hx';
    simpl in *; try done.
  - injection Hpos as ->. by rewrite !filter_cons, !decide_False.
  - by rewrite !filter_cons, (IH pos).
Qed.

(** Rewriting the one row of a campaign by a row of the same campaign: it
    stays the one row, the rows of the other campaigns are as they were, and
    the campaign's statistics are the new row. *)
Lemma stat_rewritten w w' pos s s' :
  stat_stored_once w pos s →
  CampaignStat.campaign_id s' = CampaignStat.campaign_id s →
  campaign_stats w' = <[pos := s']> (campaign_stats w) →
  stat_stored_once w' pos s' ∧
  (∀ c', c' ≠ CampaignStat.campaign_id s → stats_of c' w' = stats_of c' w) ∧
  (CampaignStat.campaign_id s ≠ "" →
   ∀ env, CampaignService.get_campaign_stats
            (Some (CampaignStat.campaign_id s)) env w' = (Ok [s'], w')).
Proof.
  intros [Hpos Huniq] Hc Hw'.
  assert (stat_stored_once w' pos s') as Honce.
  { split.
    - rewrite Hw'. apply list_lookup_insert_eq. by eapply lookup_lt_Some.
    - intros k y Hk Hy. destruct (decide (k = pos)) as [|Hne]; [done|].
      rewrite Hw', list_lookup_insert_ne in Hk by done.
      apply (Huniq k y Hk). congruence. }
  split_and!; [done|..].
  - intros c' Hc'. unfold stats_of. rewrite Hw'.
    apply (filter_insert_rejected _ _ pos s s'); [done|congruence..].
  - intros Hne env. rewrite get_campaign_stats_run, nonempty_Some by done.
    rewrite <- select_where_snd.
    destruct Honce as [Hpos' Huniq'].
    rewrite (select_where_unique _ _ pos s'); [done|done|congruence|].
    intros k y Hk Hy. apply (Huniq' k y Hk). congruence.
Qed.

Lemma stat_stored_once_select w pos s :
  stat_stored_once w pos s →
  select_where (has_campaign_id (CampaignStat.campaign_id s))
    (campaign_stats w) = [(pos, s)].
Proof. intros [Hpos Huniq]. by apply select_where_unique. Qed.


Lemma stats_world_camp1_once : stat_stored_once stats_world 0 camp1_stat.
Proof.
  split; [reflexivity|].
  intros [|[|k]] y Hk Hy; simpl in Hk; [done| |done].
  injection Hk as <-. discriminate.
Defined.


(** X18.  [get_campaign_stats] reads only.  Without a campaign, or with an
    empty identifier, it returns every rollup row; with a non-empty
    identifier, the rows of that campaign.  In both cases each row appears
    as often as it is stored, and the list is in descending order of
    [total_leads]. *)
Theorem get_campaign_stats_leaderboard env w campaign_id :
  ∃ rows,
    CampaignService.get_campaign_stats campaign_id env w = (Ok rows, w) ∧
    StronglySorted
      (λ a b, CampaignStat.total_leads b ≤ CampaignStat.total_leads a) rows ∧
    (campaign_id = None ∨ campaign_id = Some "" →
     rows ≡ₚ campaign_stats w) ∧
    (∀ c, campaign_id = Some c → c ≠ "" → rows ≡ₚ stats_of c w).
Proof.
  eexists. split; [apply get_campaign_stats_run|].
  split; [apply order_by_descending|]. split.
  - intros [-> | ->]; simpl; apply order_by_perm.
  - intros c -> Hc. rewrite nonempty_Some, order_by_perm by done.
    unfold stats_of. apply reflexive_eq, list_filter_iff.
    intros s. split; congruence.
Qed.
